(** * GLTF Collection Exporter: a model of [collection_gltf_exporter.py]

    The add-on flags Blender collections for export and writes every
    flagged collection to a glTF file of its own by calling the host's
    exporter operator.  This development embeds the data the add-on reads
    and writes (collections, custom properties, selection, active object,
    mode), the calls it makes to the host ([print], [bpy.ops.*],
    [os.makedirs]) as a log of events, and its functions as state passing
    over that data.

    Conventions of the model.
    - Strings are Python [str] values over the code points 0..255; the
      character classes [isalnum] and [isspace] are Python's on that range.
    - [os.path] is [posixpath].
    - Objects and child collections are identified by their names, which is
      how the source compares them ([obj.name in ...], [child.name for ...]).
    - Four host calls can raise.  Two are guarded by [try]/[except]: the
      glTF exporter operator in the export loop and [mode_set] in the
      restore phase.  Two are not, and their exception ends the run:
      [obj.select_set(True)], which raises for an object that is not in the
      view layer, and [os.makedirs].  What the exporter, the restoring
      [mode_set] and [os.makedirs] do is not the add-on's business; their
      outcome is a parameter of the model.  [select_all], the first
      [mode_set] and the assignments return.
    - The mode is the interaction mode of the context object.
    - [select] holds the objects whose select flag is set.  The host sets the
      flag only of an object that is in the view layer and selectable
      (visible, selection not disabled), and
      [bpy.context.selected_objects] are the objects of the scene that are
      selected in that sense.
    - [find_parents] recurses on the parent relation of the host's data; the
      model gives it fuel, and running out of fuel stands for the unbounded
      recursion of the source on a cyclic hierarchy. *)

From Stdlib Require Import Ascii NArith DecimalString QArith_base.
From stdpp Require Import base gmap strings list relations.

Local Open Scope N_scope.

(** ** Python strings *)

Module Py.

Definition between (lo hi n : N) : bool := (lo <=? n) && (n <=? hi).

(** [str.isalnum] of one character (code points 0..255). *)
Definition isalnum (c : ascii) : bool :=
  let n := N_of_ascii c in
  between 48 57 n || between 65 90 n || between 97 122 n
  || (n =? 170) || between 178 179 n || (n =? 181) || between 185 186 n
  || between 188 190 n || between 192 214 n || between 216 246 n
  || between 248 255 n.

(** [str.isspace] of one character (code points 0..255). *)
Definition isspace (c : ascii) : bool :=
  let n := N_of_ascii c in
  between 9 13 n || between 28 32 n || (n =? 133) || (n =? 160).

(** ["".join(c for c in s if f c)] *)
Fixpoint keep (f : ascii → bool) (s : string) : string :=
  match s with
  | EmptyString => EmptyString
  | String c s' => if f c then String c (keep f s') else keep f s'
  end.

(** [s.rstrip(chars)], the characters to strip given as a predicate. *)
Fixpoint rstrip_with (f : ascii → bool) (s : string) : string :=
  match s with
  | EmptyString => EmptyString
  | String c s' =>
      match rstrip_with f s' with
      | EmptyString => if f c then EmptyString else String c EmptyString
      | t => String c t
      end
  end.

(** [s.rstrip()] *)
Definition rstrip : string → string := rstrip_with isspace.

(** [str(n)] of a natural number. *)
Definition str_of_nat (n : nat) : string :=
  NilZero.string_of_uint (Nat.to_uint n).

End Py.

(** ** [os.path] (posixpath) *)

Module OsPath.

Definition is_sep (c : ascii) : bool := bool_decide (c = "/"%char).

Definition startswith_sep (s : string) : bool :=
  match s with
  | String c _ => is_sep c
  | EmptyString => false
  end.

Fixpoint endswith_sep (s : string) : bool :=
  match s with
  | EmptyString => false
  | String c EmptyString => is_sep c
  | String _ s' => endswith_sep s'
  end.

(** One round of the loop of [posixpath.join]. *)
Definition join_step (path b : string) : string :=
  if startswith_sep b then b
  else if bool_decide (path = "") || endswith_sep path then path +:+ b
  else path +:+ "/" +:+ b.

(** [os.path.join(a, *p)] *)
Definition join (a : string) (p : list string) : string :=
  foldl join_step a p.

(** [p[:p.rfind('/') + 1]] *)
Fixpoint head_of (p : string) : string :=
  match p with
  | EmptyString => EmptyString
  | String c p' =>
      match head_of p' with
      | EmptyString => if is_sep c then String c EmptyString else EmptyString
      | h => String c h
      end
  end.

Fixpoint all_sep (s : string) : bool :=
  match s with
  | EmptyString => true
  | String c s' => is_sep c && all_sep s'
  end.

(** [os.path.dirname(p)] *)
Definition dirname (p : string) : string :=
  let head := head_of p in
  if negb (bool_decide (head = "")) && negb (all_sep head)
  then Py.rstrip_with is_sep head
  else head.

End OsPath.

Local Close Scope N_scope.

(** ** The host's data *)

(** A collection of [bpy.data.collections]: its name, its custom
    properties (the dictionary behind [collection[...]] and
    [collection.get]), the names of its objects and of its child
    collections, in the host's order. *)
Record Collection := {
  name : string;
  custom_properties : gmap string bool;
  objects : list string;
  children : list string
}.

(** [scene.gltf_export_props] *)
Record GLTF_Properties := {
  export_path : string;
  use_collection_structure : bool
}.

Record World := {
  collections : list Collection;        (* bpy.data.collections *)
  filepath : string;                    (* bpy.data.filepath *)
  gltf_export_props : GLTF_Properties;  (* bpy.context.scene.gltf_export_props *)
  scene_objects : list string;          (* bpy.context.scene.objects *)
  select : gset string;                 (* the objects whose select flag is set *)
  active : option string;               (* bpy.context.view_layer.objects.active *)
  mode : string;                        (* bpy.context.object.mode *)
  desktop : string;                     (* os.path.expanduser("~/Desktop") *)
  view_layer_objects : gset string;     (* bpy.context.view_layer.objects *)
  selectable_objects : gset string      (* visible, selection not disabled *)
}.

(** The outcome of a host operator call. *)
Inductive OpResult :=
| Returned
| Raised (message : string).

(** What the add-on's code can do to the world outside the host's data.
    [FileWrite] is a write of the code's own to a file (an [open] and
    [write]). *)
Inductive Event :=
| Print (text : string)
| Report (level text : string)
| ModeSet (new_mode : string) (result : OpResult)
| SelectAll (action : string)
| Makedirs (path : string) (exist_ok : bool)
| ExportSceneGltf (file : string) (use_selection export_apply : bool)
    (result : OpResult)
| FileWrite (path content : string).

(** [collection.get("export_gltf", False)] *)
Definition export_flag (collection : Collection) : bool :=
  default false (custom_properties collection !! "export_gltf").

(** [collection["export_gltf"] = value] *)
Definition set_export_flag (value : bool) (collection : Collection) : Collection :=
  {| name := name collection;
     custom_properties := <["export_gltf" := value]> (custom_properties collection);
     objects := objects collection;
     children := children collection |}.

(** [obj.select_set(True)] takes effect: the object is in the view layer
    and selectable. *)
Definition can_select (w : World) (obj : string) : Prop :=
  obj ∈ view_layer_objects w ∧ obj ∈ selectable_objects w.

Global Instance can_select_dec w obj : Decision (can_select w obj).
Proof. unfold can_select. apply _. Defined.

(** [bpy.context.selected_objects]: the host keeps the select flag only of
    objects that can be selected. *)
Definition selected_objects (w : World) : list string :=
  filter (λ obj, obj ∈ select w ∧ can_select w obj) (scene_objects w).

Definition set_collections (cs : list Collection) (w : World) : World :=
  {| collections := cs; filepath := filepath w;
     gltf_export_props := gltf_export_props w;
     scene_objects := scene_objects w; select := select w;
     active := active w; mode := mode w; desktop := desktop w;
     view_layer_objects := view_layer_objects w;
     selectable_objects := selectable_objects w |}.

Definition set_select (s : gset string) (w : World) : World :=
  {| collections := collections w; filepath := filepath w;
     gltf_export_props := gltf_export_props w;
     scene_objects := scene_objects w; select := s;
     active := active w; mode := mode w; desktop := desktop w;
     view_layer_objects := view_layer_objects w;
     selectable_objects := selectable_objects w |}.

Definition set_active (a : option string) (w : World) : World :=
  {| collections := collections w; filepath := filepath w;
     gltf_export_props := gltf_export_props w;
     scene_objects := scene_objects w; select := select w;
     active := a; mode := mode w; desktop := desktop w;
     view_layer_objects := view_layer_objects w;
     selectable_objects := selectable_objects w |}.

Definition set_mode (m : string) (w : World) : World :=
  {| collections := collections w; filepath := filepath w;
     gltf_export_props := gltf_export_props w;
     scene_objects := scene_objects w; select := select w;
     active := active w; mode := m; desktop := desktop w;
     view_layer_objects := view_layer_objects w;
     selectable_objects := selectable_objects w |}.

(** ** The collection hierarchy *)

(** [target.name in [child.name for child in parent.children]] *)
Definition is_child_of (target parent : Collection) : bool :=
  bool_decide (name target ∈ children parent).

(** The inner function of [get_collection_hierarchy_path].  The [for] loop
    over [bpy.data.collections] returns at the first collection that has the
    target among its children, so it is a search for that first one. *)
Fixpoint find_parents (fuel : nat) (data : list Collection)
    (target_collection : Collection) (current_path : list string)
    : option (list string) :=
  match fuel with
  | O => None
  | S fuel' =>
      match List.find (is_child_of target_collection) data with
      | Some parent_collection =>
          let new_path := current_path ++ [name parent_collection] in
          let parent_found := existsb (is_child_of parent_collection) data in
          if parent_found
          then find_parents fuel' data parent_collection new_path
          else Some new_path
      | None => Some current_path
      end
  end.

(** The fuel is a step for every collection and one for the target: a walk
    that has not ended by then never ends
    ([get_collection_hierarchy_path_complete]). *)
Definition get_collection_hierarchy_path (data : list Collection)
    (collection : Collection) : option (list string) :=
  find_parents (S (length data)) data collection [].

(** ** The export run *)

(** The state threaded through [export_collections_to_gltf]: the host's
    data, the calls made so far, and the local [exported_count]. *)
Record Run := {
  world : World;
  log : list Event;
  exported_count : nat
}.

Definition emit (e : Event) (r : Run) : Run :=
  {| world := world r; log := log r ++ [e]; exported_count := exported_count r |}.

Definition on_world (f : World → World) (r : Run) : Run :=
  {| world := f (world r); log := log r; exported_count := exported_count r |}.

Definition count_export (r : Run) : Run :=
  {| world := world r; log := log r; exported_count := S (exported_count r) |}.

(** [bpy.ops.object.select_all(action='DESELECT')] *)
Definition select_all_deselect (r : Run) : Run :=
  emit (SelectAll "DESELECT") (on_world (set_select ∅) r).

(** [obj.select_set(True)]: the host raises for an object that is not in
    the view layer ([None]: nothing catches it), and leaves the flag of an
    object that is not selectable as it is. *)
Definition select_set (obj : string) (r : Run) : option Run :=
  if bool_decide (obj ∈ view_layer_objects (world r)) then
    if bool_decide (obj ∈ selectable_objects (world r))
    then Some (on_world (λ w, set_select ({[obj]} ∪ select w) w) r)
    else Some r
  else None.

(** [for obj in objs: if obj.name in bpy.context.scene.objects:
    obj.select_set(True); objects_in_collection.append(obj)]: the objects of
    the scene are selected and collected, in order. *)
Fixpoint select_in_scene (objs : list string) (r : Run)
    (objects_in_collection : list string) : option (Run * list string) :=
  match objs with
  | [] => Some (r, objects_in_collection)
  | obj :: objs' =>
      if bool_decide (obj ∈ scene_objects (world r)) then
        match select_set obj r with
        | Some r' => select_in_scene objs' r' (objects_in_collection ++ [obj])
        | None => None
        end
      else select_in_scene objs' r objects_in_collection
  end.

(** ["".join(c for c in name if c.isalnum() or c in (' ', '-', '_')).rstrip()] *)
Definition safe_collection_name (collection_name : string) : string :=
  Py.rstrip
    (Py.keep (λ c, Py.isalnum c || bool_decide (c ∈ [" "; "-"; "_"]%char))
       collection_name).

(** [for collection in bpy.data.collections: body]; [None] when a round
    does not come back. *)
Fixpoint for_collections (body : Collection → Run → option Run)
    (cs : list Collection) (r : Run) : option Run :=
  match cs with
  | [] => Some r
  | collection :: cs' =>
      match body collection r with
      | Some r' => for_collections body cs' r'
      | None => None
      end
  end.

Section ExportRun.

(** The outcome of [bpy.ops.export_scene.gltf(filepath=...)], of
    [bpy.ops.object.mode_set(mode=...)] in the restore phase and of
    [os.makedirs(path, exist_ok=True)], given the calls made before and the
    host's data at the call. *)
Variable export_scene_gltf : list Event → World → string → OpResult.
Variable restore_mode_set : list Event → World → string → OpResult.
Variable os_makedirs : list Event → World → string → OpResult.

(** The [if use_structure:] block: the directory the file goes to. *)
Definition export_directory (export_path : string) (use_structure : bool)
    (collection : Collection) (r : Run) : option (Run * string) :=
  if use_structure then
    match get_collection_hierarchy_path (collections (world r)) collection with
    | None => None
    | Some hierarchy =>
        (* [if hierarchy:] then [hierarchy.reverse()]; the reverse of a
           list is empty exactly when the list is *)
        match reverse hierarchy with
        | [] => Some (r, export_path)
        | root :: below =>
            let subfolder_path := OsPath.join root below in
            let final_export_path := OsPath.join export_path [subfolder_path] in
            (* an exception of [os.makedirs] is outside the [try] *)
            match os_makedirs (log r) (world r) final_export_path with
            | Returned =>
                Some (emit (Print ("Created/using folder structure: "
                                   +:+ subfolder_path))
                        (emit (Makedirs final_export_path true) r),
                      final_export_path)
            | Raised _ => None
            end
        end
    end
  else Some (r, export_path).

(** One round of the loop over [bpy.data.collections]. *)
Definition export_collection (export_path : string) (use_structure : bool)
    (collection : Collection) (r : Run) : option Run :=
  if negb (export_flag collection) then
    Some (emit (Print ("Skipping collection (export disabled): " +:+ name collection)) r)
  else if bool_decide (objects collection = []) then
    Some (emit (Print ("Skipping empty collection: " +:+ name collection)) r)
  else
    let r := select_all_deselect r in
    match select_in_scene (objects collection) r [] with
    | None => None
    | Some (r, []) =>
        Some (emit (Print ("No valid objects in collection: " +:+ name collection)) r)
    | Some (r, first :: _) =>
        let r := on_world (set_active (Some first)) r in
        match export_directory export_path use_structure collection r with
        | None => None
        | Some (r, final_export_path) =>
            let filename := safe_collection_name (name collection) +:+ ".gltf" in
            let file := OsPath.join final_export_path [filename] in
            match export_scene_gltf (log r) (world r) file with
            | Returned =>
                Some (count_export
                        (emit (Print ("Exported collection '" +:+ name collection
                                      +:+ "' to: " +:+ file))
                           (emit (ExportSceneGltf file true true Returned) r)))
            | Raised e =>
                Some (emit (Print ("Failed to export collection '" +:+ name collection
                                   +:+ "': " +:+ e))
                        (emit (ExportSceneGltf file true true (Raised e)) r))
            end
        end
    end.

(** [export_path] after the [if export_path is None:] block. *)
Definition resolve_export_path (export_path : option string) (w : World) : string :=
  match export_path with
  | Some p => p
  | None =>
      if bool_decide (filepath w ≠ "") then OsPath.dirname (filepath w)
      else desktop w
  end.

(** [bpy.context.object.mode if bpy.context.object else 'OBJECT'] *)
Definition context_mode (w : World) : string :=
  if active w is Some _ then mode w else "OBJECT".

(** The run up to the loop: the switch to object mode and the first
    [select_all]. *)
Definition before_loop (w : World) : Run :=
  let original_mode := context_mode w in
  let r := {| world := w; log := []; exported_count := 0 |} in
  let r :=
    if bool_decide (is_Some (active w)) && negb (bool_decide (mode w = "OBJECT"))
    then emit (Print ("Switched from " +:+ original_mode
                      +:+ " mode to OBJECT mode for export"))
           (emit (ModeSet "OBJECT" Returned) (on_world (set_mode "OBJECT") r))
    else r in
  select_all_deselect r.

(** [for obj in original_selection: if obj.name in ...: obj.select_set(True)] *)
Fixpoint reselect (original_selection : list string) (r : Run) : option Run :=
  match original_selection with
  | [] => Some r
  | obj :: objs =>
      if bool_decide (obj ∈ scene_objects (world r)) then
        match select_set obj r with
        | Some r' => reselect objs r'
        | None => None
        end
      else reselect objs r
  end.

(** The run after the loop: selection, active object and mode are put
    back and the summary is printed. *)
Definition restore_and_report (export_path : string) (use_structure : bool)
    (original_selection : list string) (original_active : option string)
    (original_mode : string) (r : Run) : option Run :=
  let r := select_all_deselect r in
  match reselect original_selection r with
  | None => None
  | Some r =>
      let r := on_world (set_active original_active) r in
      let r :=
        if bool_decide (is_Some original_active)
           && negb (bool_decide (original_mode = "OBJECT"))
        then
          match restore_mode_set (log r) (world r) original_mode with
          | Returned =>
              emit (Print ("Restored to " +:+ original_mode +:+ " mode"))
                (emit (ModeSet original_mode Returned)
                   (on_world (set_mode original_mode) r))
          | Raised e =>
              emit (Print ("Could not restore to " +:+ original_mode
                           +:+ " mode, staying in OBJECT mode"))
                (emit (ModeSet original_mode (Raised e)) r)
          end
        else r in
      let structure_note :=
        if use_structure then " (with folder structure)" else "" in
      Some (emit (Print (String "010" "Export complete! "
                         +:+ Py.str_of_nat (exported_count r)
                         +:+ " collections exported to: " +:+ export_path
                         +:+ structure_note)) r)
  end.

Definition export_collections_to_gltf (export_path : option string) (w : World)
    : option Run :=
  let use_structure := use_collection_structure (gltf_export_props w) in
  let export_path := resolve_export_path export_path w in
  let original_selection := selected_objects w in
  let original_active := active w in
  let original_mode := context_mode w in
  match for_collections (export_collection export_path use_structure)
          (collections w) (before_loop w) with
  | None => None
  | Some r =>
      restore_and_report export_path use_structure
        original_selection original_active original_mode r
  end.

(** The events of each round of a loop over [cs] from [r], for as long
    as the rounds come back. *)
Fixpoint round_logs (body : Collection → Run → option Run)
    (cs : list Collection) (r : Run) : list (list Event) :=
  match cs with
  | [] => []
  | collection :: cs' =>
      match body collection r with
      | Some r' => drop (length (log r)) (log r') :: round_logs body cs' r'
      | None => []
      end
  end.

(** The events of the rounds of [export_collections_to_gltf]: the i-th
    list holds what the round of the i-th collection did. *)
Definition export_rounds (export_path : option string) (w : World)
    : list (list Event) :=
  round_logs
    (export_collection (resolve_export_path export_path w)
       (use_collection_structure (gltf_export_props w)))
    (collections w) (before_loop w).

End ExportRun.

(** ** The toggle operator *)

(** [bpy.data.collections[collection_name]["export_gltf"] = value]: the
    first collection of that name is the one the host's lookup gives. *)
Fixpoint assign_export_flag (collection_name : string) (value : bool)
    (cs : list Collection) : list Collection :=
  match cs with
  | [] => []
  | c :: cs' =>
      if bool_decide (name c = collection_name)
      then set_export_flag value c :: cs'
      else c :: assign_export_flag collection_name value cs'
  end.

(** [bpy.data.collections[collection_name]] *)
Definition lookup_collection (collection_name : string) (cs : list Collection)
    : option Collection :=
  List.find (λ c, bool_decide (name c = collection_name)) cs.

(** [GLTF_OT_toggle_collection.execute]: the new host data and the report. *)
Definition GLTF_OT_toggle_collection_execute (collection_name : string) (w : World)
    : World * Event :=
  match lookup_collection collection_name (collections w) with
  | Some collection =>
      let current_status := export_flag collection in
      let status := if negb current_status then "enabled" else "disabled" in
      (set_collections
         (assign_export_flag collection_name (negb current_status) (collections w)) w,
       Report "INFO" ("Collection '" +:+ collection_name +:+ "' export " +:+ status))
  | None =>
      (w, Report "ERROR" ("Collection '" +:+ collection_name +:+ "' not found"))
  end.

(** ** The helper functions and the other operators *)

(** [toggle_collection_export(collection_name, enabled)]: the new host data
    and what is printed. *)
Definition toggle_collection_export (collection_name : string) (enabled : bool)
    (w : World) : World * Event :=
  match lookup_collection collection_name (collections w) with
  | Some _ =>
      let status := if enabled then "enabled" else "disabled" in
      (set_collections (assign_export_flag collection_name enabled (collections w)) w,
       Print ("Collection '" +:+ collection_name +:+ "' export " +:+ status))
  | None =>
      (w, Print ("Collection '" +:+ collection_name +:+ "' not found"))
  end.

(** [enable_all_collections_for_export()] *)
Definition enable_all_collections_for_export (w : World) : World * Event :=
  (set_collections (set_export_flag true <$> collections w) w,
   Print ("Enabled " +:+ Py.str_of_nat (length (collections w))
          +:+ " collections for export")).

(** [disable_all_collections_for_export()] *)
Definition disable_all_collections_for_export (w : World) : World * Event :=
  (set_collections (set_export_flag false <$> collections w) w,
   Print ("Disabled " +:+ Py.str_of_nat (length (collections w))
          +:+ " collections for export")).

(** [GLTF_OT_enable_all_collections.execute]: the new host data, what is
    printed and what is reported. *)
Definition GLTF_OT_enable_all_collections_execute (w : World) : World * list Event :=
  let '(w', printed) := enable_all_collections_for_export w in
  (w', [printed;
        Report "INFO" ("Enabled " +:+ Py.str_of_nat (length (collections w'))
                       +:+ " collections for export")]).

(** [GLTF_OT_disable_all_collections.execute] *)
Definition GLTF_OT_disable_all_collections_execute (w : World) : World * list Event :=
  let '(w', printed) := disable_all_collections_for_export w in
  (w', [printed;
        Report "INFO" ("Disabled " +:+ Py.str_of_nat (length (collections w'))
                       +:+ " collections for export")]).

(** [s.lstrip(chars)], the characters to strip given as a predicate. *)
Fixpoint lstrip_with (f : ascii → bool) (s : string) : string :=
  match s with
  | EmptyString => EmptyString
  | String c s' => if f c then lstrip_with f s' else s
  end.

(** [s.strip()] *)
Definition strip (s : string) : string :=
  Py.rstrip (lstrip_with Py.isspace s).

(** The argument [GLTF_OT_export_collections.execute] passes on:
    [custom_path if custom_path else None], with
    [custom_path = export_path.strip() if export_path else None]. *)
Definition custom_export_path (gltf_props : GLTF_Properties) : option string :=
  let custom_path :=
    if bool_decide (export_path gltf_props ≠ "")
    then Some (strip (export_path gltf_props)) else None in
  match custom_path with
  | Some p => if bool_decide (p ≠ "") then Some p else None
  | None => None
  end.

Section ExportOperator.

Variable export_scene_gltf : list Event → World → string → OpResult.
Variable restore_mode_set : list Event → World → string → OpResult.
Variable os_makedirs : list Event → World → string → OpResult.

(** [GLTF_OT_export_collections.execute] *)
Definition GLTF_OT_export_collections_execute (w : World) : option Run :=
  let gltf_props := gltf_export_props w in
  let export_path := custom_export_path gltf_props in
  match export_collections_to_gltf export_scene_gltf restore_mode_set os_makedirs
          export_path w with
  | Some r =>
      Some (emit (Report "INFO"
                    "Collection export completed! Check console for details.") r)
  | None => None
  end.

End ExportOperator.

(** ** The panel *)

(** What [draw] puts on the panel: the calls on a layout, a [box] or a
    [row] holding the calls made on it.  An operator button carries the
    properties assigned to what [operator] returned. *)
Local Unset Elimination Schemes.
Inductive Widget :=
| Label (text icon : string)
| PropField (property text : string)
| Separator
| Operator (idname text icon : string) (props : list (string * string))
| Row (align : bool) (scale_y : Q) (items : list Widget)
| Box (items : list Widget).
Local Set Elimination Schemes.

(** One round of the loop of [draw] over [bpy.data.collections]. *)
Definition collection_row (collection : Collection) : Widget :=
  let export_enabled := export_flag collection in
  Row true 1
    [ Operator "gltf.toggle_collection" ""
        (if export_enabled then "CHECKBOX_HLT" else "CHECKBOX_DEHLT")
        [("collection_name", name collection)];
      Label (name collection +:+ " ("
             +:+ Py.str_of_nat (length (objects collection)) +:+ " objects)")
        "NONE" ].

(** [GLTF_PT_collection_exporter.draw] *)
Definition GLTF_PT_collection_exporter_draw (w : World) : list Widget :=
  let gltf_props := gltf_export_props w in
  [ Box [ Label "Export Settings:" "FILEBROWSER";
          PropField "export_path" "Export Path";
          PropField "use_collection_structure" "Use Collection Folders";
          if bool_decide (export_path gltf_props ≠ "")
          then Label ("Will export to: " +:+ export_path gltf_props) "CHECKMARK"
          else Label "Will use default location" "INFO" ];
    Separator;
    Row true (3 # 2)
      [ Operator "gltf.export_collections" "Export Enabled Collections" "EXPORT" [] ];
    Separator;
    Row true 1
      [ Operator "gltf.enable_all_collections" "Enable All" "CHECKMARK" [];
        Operator "gltf.disable_all_collections" "Disable All" "X" [] ];
    Separator;
    Box (Label "Collections:" "OUTLINER_COLLECTION"
         :: if bool_decide (length (collections w) = 0)
            then [ Label "No collections found" "INFO" ]
            else collection_row <$> collections w) ].

(** The operator buttons of a widget, in the order they are drawn. *)
Fixpoint operators (ui : Widget) : list Widget :=
  match ui with
  | Operator _ _ _ _ => [ui]
  | Row _ _ items | Box items => flat_map operators items
  | _ => []
  end.

(** The checkboxes of a panel: the icon and the collection name of every
    [gltf.toggle_collection] button. *)
Definition checkbox (ui : Widget) : option (string * string) :=
  match ui with
  | Operator idname _ icon [(key, n)] =>
      if bool_decide (idname = "gltf.toggle_collection" ∧ key = "collection_name")
      then Some (icon, n) else None
  | _ => None
  end.

Definition checkboxes (panel : list Widget) : list (string * string) :=
  omap checkbox (flat_map operators panel).

(** The labels of a widget, in the order they are drawn. *)
Fixpoint labels (ui : Widget) : list string :=
  match ui with
  | Label text _ => [text]
  | Row _ _ items | Box items => flat_map labels items
  | _ => []
  end.

(** ** Notions the properties are stated with *)

(** [parent_of data p c]: a collection named [p] of [data] has a child
    named [c]. *)
Definition parent_of (data : list Collection) (p c : string) : Prop :=
  ∃ parent, parent ∈ data ∧ name parent = p ∧ c ∈ children parent.

Definition has_parent (data : list Collection) (c : string) : Prop :=
  ∃ p, parent_of data p c.

(** No collection is among its own ancestors. *)
Definition acyclic (data : list Collection) : Prop :=
  ∀ c, ¬ tc (parent_of data) c c.

(** Every collection is the child of at most one collection. *)
Definition single_parent (data : list Collection) : Prop :=
  ∀ p1 p2 c, parent_of data p1 c → parent_of data p2 c → p1 = p2.

(** [lineage data c l]: [l] names ancestors of [c] from a root (a
    collection without parent) down to a parent of [c]. *)
Inductive lineage (data : list Collection) : string → list string → Prop :=
| lineage_root c :
    ¬ has_parent data c → lineage data c []
| lineage_under c p l :
    parent_of data p c → lineage data p l → lineage data c (l ++ [p]).

(** The objects of a collection that the loop selects. *)
Definition objects_in_scene (w : World) (collection : Collection) : list string :=
  filter (λ obj, obj ∈ scene_objects w) (objects collection).

(** The test a collection passes to reach the exporter: flagged, and with
    an object in the current scene. *)
Definition exportable (w : World) (collection : Collection) : bool :=
  export_flag collection && negb (bool_decide (objects_in_scene w collection = [])).

(** [f"{safe_collection_name}.gltf"] *)
Definition gltf_filename (collection : Collection) : string :=
  safe_collection_name (name collection) +:+ ".gltf".

(** The calls of the host's exporter in a log, in order: the file and the
    outcome. *)
Fixpoint gltf_calls (l : list Event) : list (string * OpResult) :=
  match l with
  | [] => []
  | ExportSceneGltf file _ _ result :: l' => (file, result) :: gltf_calls l'
  | _ :: l' => gltf_calls l'
  end.

Global Instance OpResult_eq_dec : EqDecision OpResult.
Proof. solve_decision. Defined.

(** The calls that came back without raising. *)
Definition successful (calls : list (string * OpResult)) : list (string * OpResult) :=
  filter (λ call, call.2 = Returned) calls.

(** No [select_set] of the loop raises: the objects of the flagged
    collections that are in the scene are in the view layer too. *)
Definition loop_objects_in_view_layer (w : World) : Prop :=
  ∀ c obj, c ∈ collections w → export_flag c = true →
           obj ∈ objects c → obj ∈ scene_objects w → obj ∈ view_layer_objects w.

(** A host call that never raises. *)
Definition never_raises (op : list Event → World → string → OpResult) : Prop :=
  ∀ l w argument, op l w argument = Returned.

(** The events that reach the file system. *)
Definition touches_files (e : Event) : bool :=
  match e with
  | Makedirs _ _ | ExportSceneGltf _ _ _ _ | FileWrite _ _ => true
  | _ => false
  end.

(** The characters of a string all pass a test. *)
Fixpoint all_chars (f : ascii → bool) (s : string) : bool :=
  match s with
  | EmptyString => true
  | String c s' => f c && all_chars f s'
  end.

(** The directory a round writes to: the export path, joined with the
    reversed result of the hierarchy walk when folders are asked for. *)
Definition export_dir (base : string) (use_structure : bool)
    (data : list Collection) (collection : Collection) (dir : string) : Prop :=
  if use_structure then
    ∃ hierarchy, get_collection_hierarchy_path data collection = Some hierarchy
                 ∧ dir = OsPath.join base (reverse hierarchy)
  else dir = base.

(** An event that reaches the file system is a [makedirs] or a call of the
    host's exporter. *)
Definition host_file_effect (e : Event) : Prop :=
  touches_files e = true →
  (∃ p, e = Makedirs p true) ∨ (∃ f o, e = ExportSceneGltf f true true o).

(** What one round does, from [r] to [r'] with the events [seg]. *)
Definition round_summary (base : string) (use_structure : bool)
    (collection : Collection) (r r' : Run) (seg : list Event) : Prop :=
  log r' = log r ++ seg
  ∧ collections (world r') = collections (world r)
  ∧ scene_objects (world r') = scene_objects (world r)
  ∧ Forall host_file_effect seg
  ∧ exported_count r' = length (successful (gltf_calls seg)) + exported_count r
  ∧ if exportable (world r) collection then
      ∃ dir out,
        export_dir base use_structure (collections (world r)) collection dir
        ∧ gltf_calls seg = [(OsPath.join dir [gltf_filename collection], out)]
        ∧ (use_structure = true →
           has_parent (collections (world r)) (name collection) →
           Makedirs dir true ∈ seg)
    else gltf_calls seg = [].

(** What the round of a collection did, in terms of the host's data at the
    start of the run. *)
Definition round_result (base : string) (use_structure : bool) (w : World)
    (collection : Collection) (seg : list Event) : Prop :=
  Forall host_file_effect seg
  ∧ if exportable w collection then
      ∃ dir out,
        export_dir base use_structure (collections w) collection dir
        ∧ gltf_calls seg = [(OsPath.join dir [gltf_filename collection], out)]
        ∧ (use_structure = true →
           has_parent (collections w) (name collection) →
           Makedirs dir true ∈ seg)
    else gltf_calls seg = [].

(** [ranked rank data]: every collection has a smaller rank than each of
    its children; a check that [data] is acyclic. *)
Definition ranked (rank : string → nat) (data : list Collection) : bool :=
  forallb (λ parent, forallb (λ c, rank (name parent) <? rank c) (children parent)) data.

(** An event that does not reach the file system. *)
Definition quiet (e : Event) : Prop := touches_files e = false.

(** The host's data that the export never writes. *)
Definition kept (w w' : World) : Prop :=
  collections w' = collections w
  ∧ scene_objects w' = scene_objects w
  ∧ filepath w' = filepath w
  ∧ gltf_export_props w' = gltf_export_props w
  ∧ desktop w' = desktop w
  ∧ view_layer_objects w' = view_layer_objects w
  ∧ selectable_objects w' = selectable_objects w.

(** The host's data as the exporter finds it in the round of an exportable
    [collection], in a run from [w]: of the objects of the collection that
    are in the scene, all of them in the view layer, the selectable ones are
    selected and the first is active. *)
Definition shown (w : World) (collection : Collection) (w' : World) : Prop :=
  exportable w collection = true
  ∧ Forall (λ obj, obj ∈ view_layer_objects w) (objects_in_scene w collection)
  ∧ kept w w'
  ∧ select w'
    = list_to_set (filter (λ obj, obj ∈ selectable_objects w)
                     (objects_in_scene w collection))
  ∧ active w' = head (objects_in_scene w collection).

(** The mode during the loop: object mode when there is an active
    object. *)
Definition loop_mode (w : World) : string :=
  if active w is Some _ then "OBJECT" else mode w.

(** The host's data at a call of the exporter, in a run from [w]: those
    that show one of the collections, in the mode of the loop. *)
Definition call_data (w w' : World) : Prop :=
  ∃ collection,
    collection ∈ collections w ∧ shown w collection w' ∧ mode w' = loop_mode w.

(** [answered gltf at_call l]: every call of the exporter in the log [l]
    carries what the exporter [gltf] answers, given the log before the call
    and the host's data at the call, which satisfy [at_call]. *)
Inductive answered (gltf : list Event → World → string → OpResult)
    (at_call : World → Prop) : list Event → Prop :=
| answered_nil : answered gltf at_call []
| answered_call l w file :
    answered gltf at_call l →
    at_call w →
    answered gltf at_call (l ++ [ExportSceneGltf file true true (gltf l w file)])
| answered_other l e :
    answered gltf at_call l →
    (if e is ExportSceneGltf _ _ _ _ then False else True) →
    answered gltf at_call (l ++ [e]).

(** ** Example scenes *)

Definition flagged (n : string) (objs kids : list string) : Collection :=
  {| name := n; custom_properties := {["export_gltf" := true]};
     objects := objs; children := kids |}.

Definition unflagged (n : string) (objs kids : list string) : Collection :=
  {| name := n; custom_properties := ∅; objects := objs; children := kids |}.

Definition switched_off (n : string) (objs kids : list string) : Collection :=
  {| name := n; custom_properties := {["export_gltf" := false]};
     objects := objs; children := kids |}.

(** A saved file with nested collections, folders asked for, an object
    selected and in edit mode. *)
Definition studio : World :=
  {| collections :=
       [ unflagged "Root" ["Empty"] ["Props"; "Lights"];
         flagged "Props" ["Cube"; "Crate"] ["Small"];
         flagged "Small" ["Bolt"] [];
         switched_off "Lights" ["Sun"] [] ];
     filepath := "/home/artist/scene.blend";
     gltf_export_props := {| export_path := ""; use_collection_structure := true |};
     scene_objects := ["Empty"; "Cube"; "Crate"; "Bolt"; "Sun"];
     select := {["Cube"]};
     active := Some "Cube";
     mode := "EDIT";
     desktop := "/home/artist/Desktop";
     view_layer_objects := list_to_set ["Empty"; "Cube"; "Crate"; "Bolt"; "Sun"];
     selectable_objects := list_to_set ["Empty"; "Cube"; "Crate"; "Bolt"; "Sun"] |}.

Definition studio_rank (n : string) : nat :=
  if bool_decide (n = "Root") then 0
  else if bool_decide (n ∈ ["Props"; "Lights"]) then 1 else 2.

(** A flagged collection whose only object belongs to another scene. *)
Definition other_scene : World :=
  {| collections := [ flagged "Props" ["Cube"] [] ];
     filepath := "";
     gltf_export_props := {| export_path := "/out"; use_collection_structure := false |};
     scene_objects := ["Lamp"];
     select := ∅;
     active := None;
     mode := "OBJECT";
     desktop := "/home/artist/Desktop";
     view_layer_objects := {["Lamp"]};
     selectable_objects := {["Lamp"]} |}.

(** Two flagged collections whose names differ by a dot. *)
Definition twins : World :=
  {| collections := [ flagged "Rock.001" ["Boulder"] []; flagged "Rock001" ["Pebble"] [] ];
     filepath := "";
     gltf_export_props := {| export_path := "/out"; use_collection_structure := false |};
     scene_objects := ["Boulder"; "Pebble"];
     select := ∅;
     active := None;
     mode := "OBJECT";
     desktop := "/home/artist/Desktop";
     view_layer_objects := list_to_set ["Boulder"; "Pebble"];
     selectable_objects := list_to_set ["Boulder"; "Pebble"] |}.

(** An exporter that never raises, and one that raises on one file. *)
Definition always_returns : list Event → World → string → OpResult :=
  λ _ _ _, Returned.

Definition raises_on (file : string) : list Event → World → string → OpResult :=
  λ _ _ f, if bool_decide (f = file) then Raised "disk full" else Returned.

(** The run of the studio scene used below: the exporter raises on the file
    of [Props], and the export path is left to the default. *)
Definition studio_exporter : list Event → World → string → OpResult :=
  raises_on "/home/artist/Root/Props.gltf".

Definition studio_run : option Run :=
  export_collections_to_gltf studio_exporter always_returns always_returns None studio.

Definition studio_rounds : list (list Event) :=
  export_rounds studio_exporter always_returns None studio.

(** The studio with the cube in a collection that is excluded from the view
    layer, and with the cube hidden. *)
Definition studio_without (objs : list string) : gset string :=
  list_to_set (filter (λ obj, obj ∉ objs) (scene_objects studio)).

Definition studio_cube_excluded : World :=
  {| collections := collections studio; filepath := filepath studio;
     gltf_export_props := gltf_export_props studio;
     scene_objects := scene_objects studio; select := ∅;
     active := None; mode := "OBJECT"; desktop := desktop studio;
     view_layer_objects := studio_without ["Cube"];
     selectable_objects := studio_without ["Cube"] |}.

Definition studio_cube_hidden : World :=
  {| collections := collections studio; filepath := filepath studio;
     gltf_export_props := gltf_export_props studio;
     scene_objects := scene_objects studio; select := ∅;
     active := None; mode := "OBJECT"; desktop := desktop studio;
     view_layer_objects := view_layer_objects studio;
     selectable_objects := studio_without ["Cube"] |}.

(** ** Notions of the further properties *)

(** A call of [os.makedirs]. *)
Definition is_makedirs (e : Event) : bool :=
  if e is Makedirs _ _ then true else false.

(** The characters [safe_collection_name] lets through. *)
Definition allowed (c : ascii) : bool :=
  Py.isalnum c || bool_decide (c ∈ [" "; "-"; "_"]%char).

(** A string that does not start with white space. *)
Definition starts_clean (s : string) : bool :=
  match s with
  | EmptyString => true
  | String c _ => negb (Py.isspace c)
  end.

(** The checkbox and the label that [draw] gives a collection. *)
Definition checkbox_of (collection : Collection) : string * string :=
  (if export_flag collection then "CHECKBOX_HLT" else "CHECKBOX_DEHLT",
   name collection).

Definition row_label (collection : Collection) : string :=
  name collection +:+ " (" +:+ Py.str_of_nat (length (objects collection))
  +:+ " objects)".

(** Two collections that are each other's child. *)
Definition ring : list Collection :=
  [ unflagged "A" [] ["B"]; unflagged "B" [] ["A"] ].

(** An exporter that refuses to run without an active object. *)
Definition needs_active : list Event → World → string → OpResult :=
  λ _ w _, if active w is Some _ then Returned else Raised "no active object".

(** * Properties *)

(** ** The hierarchy walk *)

Section Hierarchy.

Context (data : list Collection).

Lemma find_first_parent target parent :
  List.find (is_child_of target) data = Some parent →
  parent ∈ data ∧ parent_of data (name parent) (name target).
Proof.
  intros [Hin Hc]%find_some. apply list_elem_of_In in Hin.
  apply bool_decide_eq_true in Hc. split; [done|]. by exists parent.
Qed.

Lemma find_no_parent target :
  List.find (is_child_of target) data = None → ¬ has_parent data (name target).
Proof.
  intros Hnone [p (parent & Hin & _ & Hc)].
  apply list_elem_of_In in Hin.
  pose proof (find_none _ _ Hnone _ Hin) as Hf.
  by apply bool_decide_eq_false in Hf.
Qed.

Lemma parent_found_iff parent :
  existsb (is_child_of parent) data = true ↔ has_parent data (name parent).
Proof.
  rewrite existsb_exists. split.
  - intros (g & Hin%list_elem_of_In & Hc%bool_decide_eq_true).
    exists (name g). by exists g.
  - intros (p & g & Hin%list_elem_of_In & _ & Hc).
    exists g. split; [done|]. by apply bool_decide_eq_true.
Qed.

(** The walk only ever extends the path it was given, by a lineage read
    from the parent upwards. *)
Lemma find_parents_lineage fuel : ∀ target current_path path,
  find_parents fuel data target current_path = Some path →
  ∃ ext, path = current_path ++ ext
         ∧ lineage data (name target) (reverse ext)
         ∧ (ext = [] ↔ ¬ has_parent data (name target)).
Proof.
  induction fuel as [|fuel IH]; intros target cur path; [done|].
  cbn [find_parents].
  destruct (List.find (is_child_of target) data) as [parent|] eqn:Hfind.
  - destruct (find_first_parent _ _ Hfind) as [Hin Hpar].
    destruct (existsb (is_child_of parent) data) eqn:Hex.
    + intros (ext & -> & Hlin & _)%IH.
      exists (name parent :: ext). split; [by rewrite <- (assoc_L (++))|].
      split.
      * rewrite reverse_cons. by apply lineage_under.
      * split; [done|]. intros []. by exists (name parent).
    + intros [= <-]. exists [name parent]. split; [done|]. split.
      * apply (lineage_under data _ _ []); [done|].
        apply lineage_root. rewrite <- parent_found_iff. by rewrite Hex.
      * split; [done|]. intros []. by exists (name parent).
  - intros [= <-]. exists []. rewrite (right_id_L [] (++)).
    pose proof (find_no_parent _ Hfind) as Hno.
    split; [done|]. split; [by apply lineage_root|done].
Qed.

(** More fuel does not change an answer. *)
Lemma find_parents_fuel_mono fuel : ∀ target current_path path,
  find_parents fuel data target current_path = Some path →
  find_parents (S fuel) data target current_path = Some path.
Proof.
  induction fuel as [|fuel IH]; intros target cur path; [done|].
  intros H. cbn [find_parents] in H |- *.
  destruct (List.find (is_child_of target) data) as [parent|]; [|done].
  destruct (existsb (is_child_of parent) data); [|done].
  by apply IH.
Qed.

Lemma find_parents_fuel_le fuel fuel' target current_path path :
  fuel ≤ fuel' →
  find_parents fuel data target current_path = Some path →
  find_parents fuel' data target current_path = Some path.
Proof.
  induction 1 as [|fuel' _ IH]; [done|].
  intros H. by apply find_parents_fuel_mono, IH.
Qed.

(** In an acyclic hierarchy the walk never meets a name twice, so it ends
    before the names run out: [visited] are the targets of the calls so
    far, all of them below the current target. *)
Lemma find_parents_ends (universe : list string) :
  acyclic data →
  (∀ c, c ∈ data → name c ∈ universe) →
  ∀ fuel target current_path visited,
    NoDup visited →
    (∀ v, v ∈ visited → v ∈ universe) →
    name target ∈ universe →
    (∀ v, v ∈ visited → tc (parent_of data) (name target) v) →
    length universe ≤ fuel + length visited →
    is_Some (find_parents fuel data target current_path).
Proof.
  intros Hacyc Huniv.
  induction fuel as [|fuel IH]; intros target cur visited Hnd Hsub Hin Hbelow Hlen.
  - exfalso.
    assert (Hfresh : name target ∉ visited).
    { intros Hv. by apply (Hacyc (name target)), Hbelow. }
    assert (name target :: visited ⊆+ universe) as Hle%submseteq_length.
    { apply NoDup_submseteq; [by constructor|].
      intros x [->|Hx]%elem_of_cons; auto. }
    simpl in Hle, Hlen. lia.
  - cbn [find_parents].
    destruct (List.find (is_child_of target) data) as [parent|] eqn:Hfind; [|by eexists].
    destruct (find_first_parent _ _ Hfind) as [Hpin Hpar].
    destruct (existsb (is_child_of parent) data); [|by eexists].
    assert (Hfresh : name target ∉ visited).
    { intros Hv. by apply (Hacyc (name target)), Hbelow. }
    apply (IH parent _ (name target :: visited)).
    + by constructor.
    + intros v [->|Hv]%elem_of_cons; auto.
    + by apply Huniv.
    + intros v [->|Hv]%elem_of_cons; [by apply tc_once|].
      eapply tc_l; [exact Hpar|]. by apply Hbelow.
    + simpl. lia.
Qed.

Lemma get_collection_hierarchy_path_ends collection :
  acyclic data → is_Some (get_collection_hierarchy_path data collection).
Proof.
  intros Hacyc. unfold get_collection_hierarchy_path.
  apply (find_parents_ends (name collection :: (name <$> data)) Hacyc) with (visited := []).
  - intros c Hc. apply elem_of_cons. right. by apply list_elem_of_fmap_2.
  - constructor.
  - by intros v ?%elem_of_nil.
  - apply elem_of_cons; by left.
  - by intros v ?%elem_of_nil.
  - simpl. rewrite length_fmap. lia.
Qed.

(** The walk looks at its target's name only, and at the path it was given
    not at all. *)
Lemma find_parents_name fuel target target' current_path :
  name target = name target' →
  find_parents fuel data target current_path
  = find_parents fuel data target' current_path.
Proof.
  intros Hname. destruct fuel as [|fuel]; [done|].
  cbn [find_parents]. unfold is_child_of at 1 3. by rewrite Hname.
Qed.

Lemma find_parents_path fuel : ∀ target current_path,
  find_parents fuel data target current_path
  = (current_path ++.) <$> find_parents fuel data target [].
Proof.
  induction fuel as [|fuel IH]; intros target cur; [done|].
  cbn [find_parents].
  destruct (List.find (is_child_of target) data) as [parent|];
    [|by cbn; rewrite (right_id_L [] (++))].
  destruct (existsb (is_child_of parent) data); [|done].
  rewrite (IH parent (cur ++ _)), (IH parent ([] ++ _)).
  destruct (find_parents fuel data parent []) as [ext|]; [|done].
  cbn. by rewrite <- (assoc_L (++)).
Qed.

Lemma find_parents_some_path fuel target current_path :
  is_Some (find_parents fuel data target [])
  → is_Some (find_parents fuel data target current_path).
Proof. rewrite (find_parents_path fuel target current_path). by intros [ext ->]. Qed.

(** A walk that ends needs less fuel after every step, so it meets no name
    twice either, whatever the hierarchy: [k] is the fuel the walk from
    [target] needs, and the names of [visited] need more. *)
Lemma find_parents_ends_early (universe : list string) :
  (∀ c, c ∈ data → name c ∈ universe) →
  ∀ fuel k target current_path visited,
    is_Some (find_parents (S k) data target []) →
    ¬ is_Some (find_parents k data target []) →
    NoDup visited →
    (∀ v, v ∈ visited → v ∈ universe) →
    name target ∈ universe →
    (∀ c, name c ∈ visited → ¬ is_Some (find_parents (S k) data c [])) →
    length universe ≤ fuel + length visited →
    is_Some (find_parents fuel data target current_path).
Proof.
  intros Huniv.
  induction fuel as [|fuel IH];
    intros k target cur visited Hends Hexact Hnd Hsub Hin Hmore Hlen.
  - exfalso.
    assert (Hfresh : name target ∉ visited) by (intros Hv; by apply (Hmore target)).
    assert (name target :: visited ⊆+ universe) as Hle%submseteq_length.
    { apply NoDup_submseteq; [by constructor|].
      intros x [->|Hx]%elem_of_cons; auto. }
    simpl in Hle, Hlen. lia.
  - assert (Hfresh : name target ∉ visited) by (intros Hv; by apply (Hmore target)).
    cbn [find_parents] in Hends |- *.
    destruct (List.find (is_child_of target) data) as [parent|] eqn:Hfind; [|by eexists].
    destruct (find_first_parent _ _ Hfind) as [Hpin _].
    destruct (existsb (is_child_of parent) data) eqn:Hex; [|by eexists].
    rewrite find_parents_path in Hends.
    apply fmap_is_Some in Hends.
    destruct k as [|k]; [by destruct Hends|].
    apply (IH k parent _ (name target :: visited)).
    + done.
    + intros Hless. apply Hexact. cbn [find_parents]. rewrite Hfind, Hex.
      by apply find_parents_some_path.
    + by constructor.
    + intros v [->|Hv]%elem_of_cons; auto.
    + by apply Huniv.
    + intros c [Hc|Hc]%elem_of_cons Hsome.
      * apply Hexact. by rewrite <- (find_parents_name _ c target).
      * apply (Hmore c Hc). destruct Hsome as [path Hpath].
        eexists. by apply find_parents_fuel_mono.
    + simpl. lia.
Qed.

(** The fuel of [get_collection_hierarchy_path] is enough: it gives every
    answer that any fuel gives. *)
Lemma get_collection_hierarchy_path_complete fuel collection path :
  find_parents fuel data collection [] = Some path →
  get_collection_hierarchy_path data collection = Some path.
Proof.
  intros Hpath. unfold get_collection_hierarchy_path.
  assert (Hsome : is_Some (find_parents (S (length data)) data collection [])).
  { assert (∃ k, is_Some (find_parents (S k) data collection [])
                 ∧ ¬ is_Some (find_parents k data collection [])) as (k & Hk & Hexact).
    { assert (Hany : is_Some (find_parents fuel data collection [])) by (by eexists).
      clear -Hany. induction fuel as [|fuel IH]; [by destruct Hany|].
      destruct (find_parents fuel data collection []) as [path'|] eqn:Hf.
      - apply IH. by eexists.
      - exists fuel. rewrite Hf. split; [done|]. by intros [? ?]. }
    apply (find_parents_ends_early (name collection :: (name <$> data)))
      with (k := k) (visited := []); try done.
    - intros c Hc. apply elem_of_cons. right. by apply list_elem_of_fmap_2.
    - constructor.
    - by intros v ?%elem_of_nil.
    - apply elem_of_cons; by left.
    - by intros c ?%elem_of_nil.
    - simpl. rewrite length_fmap. lia. }
  destruct Hsome as [path' Hpath'].
  destruct (Nat.le_ge_cases fuel (S (length data))) as [Hle|Hge].
  - by apply (find_parents_fuel_le fuel).
  - pose proof (find_parents_fuel_le _ fuel _ _ _ Hge Hpath') as Hsame.
    rewrite Hpath in Hsame. by rewrite Hpath'.
Qed.

End Hierarchy.

(** ** Strings and paths *)

Section Paths.

Import OsPath.

Lemma append_cons c (s t : string) : String c s +:+ t = String c (s +:+ t).
Proof. reflexivity. Qed.

Lemma append_empty_r (s : string) : s +:+ "" = s.
Proof. induction s as [|c s IH]; [done|]. by rewrite append_cons, IH. Qed.

Lemma append_assoc (s t u : string) : (s +:+ t) +:+ u = s +:+ t +:+ u.
Proof. induction s as [|c s IH]; [done|]. by rewrite !append_cons, IH. Qed.

Lemma append_eq_empty (s t : string) : s +:+ t = "" ↔ s = "" ∧ t = "".
Proof.
  destruct s as [|c s]; [by intuition|].
  rewrite append_cons. split; [done|]. by intros [? _].
Qed.

Lemma startswith_sep_append (s t : string) :
  startswith_sep (s +:+ t) = if s is "" then startswith_sep t else startswith_sep s.
Proof. by destruct s. Qed.

Lemma endswith_sep_append (s t : string) :
  endswith_sep (s +:+ t) = if t is "" then endswith_sep s else endswith_sep t.
Proof.
  induction s as [|c s IH].
  - by destruct t.
  - rewrite append_cons. destruct t as [|d t].
    + by rewrite append_empty_r.
    + change (endswith_sep (String c (s +:+ String d t)))
        with (match s +:+ String d t with
              | "" => is_sep c
              | _ => endswith_sep (s +:+ String d t)
              end).
      rewrite IH. destruct (s +:+ String d t) eqn:E; [|done].
      apply append_eq_empty in E as [_ [=]].
  Qed.

(** Joining is associative: the pieces can be joined in any grouping. *)
Lemma join_step_assoc (a x h : string) :
  join_step a (join_step x h) = join_step (join_step a x) h.
Proof.
  unfold join_step at 2 4.
  destruct (startswith_sep h) eqn:Hh.
  { unfold join_step. by rewrite Hh. }
  destruct x as [|c x].
  { cbn [bool_decide orb]. rewrite bool_decide_eq_true_2 by done. cbn [orb].
    change ("" +:+ h) with h. unfold join_step. rewrite Hh.
    change (startswith_sep "") with false. cbv iota.
    destruct (bool_decide (a = "") || endswith_sep a) eqn:Ha.
    - by rewrite append_empty_r, Ha.
    - rewrite append_empty_r.
      rewrite (bool_decide_eq_false_2 (a +:+ "/" = ""))
        by (rewrite append_eq_empty; by intros [_ ?]).
      rewrite endswith_sep_append. cbn [orb].
      change (endswith_sep "/") with true. cbv iota.
      by rewrite append_assoc. }
  rewrite (bool_decide_eq_false_2 (String c x = "")) by done. cbn [orb].
  set (inner := if endswith_sep (String c x)
                then String c x +:+ h else String c x +:+ "/" +:+ h).
  assert (Hstart : startswith_sep inner = startswith_sep (String c x)).
  { unfold inner. by destruct (endswith_sep (String c x)). }
  unfold join_step. rewrite Hstart, Hh.
  destruct (startswith_sep (String c x)) eqn:Hx.
  { rewrite (bool_decide_eq_false_2 (String c x = "")) by done. done. }
  destruct (bool_decide (a = "") || endswith_sep a).
  - case_bool_decide as E; [by apply append_eq_empty in E as [_ [=]]|].
    rewrite endswith_sep_append. cbn [orb]. unfold inner.
    destruct (endswith_sep (String c x)); by rewrite !append_assoc.
  - change ("/" +:+ String c x) with (String "/" (String c x)).
    case_bool_decide as E; [by apply append_eq_empty in E as [_ [=]]|].
    rewrite endswith_sep_append. cbn [orb]. cbv iota.
    change (endswith_sep (String "/" (String c x))) with (endswith_sep (String c x)).
    unfold inner.
    destruct (endswith_sep (String c x)); rewrite !append_assoc; reflexivity.
Qed.

Lemma join_assoc (a b : string) (l : list string) :
  join a [join b l] = join a (b :: l).
Proof.
  unfold join. cbn [foldl]. revert b.
  induction l as [|h l IH]; intros b; [done|].
  cbn [foldl]. by rewrite IH, join_step_assoc.
Qed.

Lemma keep_all_chars f s : all_chars f (Py.keep f s) = true.
Proof.
  induction s as [|c s IH]; [done|]. cbn [Py.keep].
  destruct (f c) eqn:Hc; [|done]. cbn [all_chars]. by rewrite Hc, IH.
Qed.

Lemma rstrip_all_chars f g s :
  all_chars f s = true → all_chars f (Py.rstrip_with g s) = true.
Proof.
  induction s as [|c s IH]; [done|]. cbn [all_chars Py.rstrip_with].
  intros [Hc Hs]%andb_true_iff. specialize (IH Hs).
  destruct (Py.rstrip_with g s) as [|d t].
  - destruct (g c); [done|]. cbn [all_chars]. by rewrite Hc.
  - cbn [all_chars] in IH |- *. by rewrite Hc, IH.
Qed.

(** The file name never starts a new absolute path. *)
Lemma gltf_filename_relative collection :
  startswith_sep (gltf_filename collection) = false.
Proof.
  unfold gltf_filename, safe_collection_name, Py.rstrip.
  set (f := λ c, Py.isalnum c || bool_decide (c ∈ [" "; "-"; "_"]%char)).
  pose proof (rstrip_all_chars f Py.isspace _ (keep_all_chars f (name collection))) as H.
  destruct (Py.rstrip_with _ _) as [|c s]; [done|].
  cbn [all_chars] in H. apply andb_true_iff in H as [Hc _].
  rewrite append_cons. cbn [startswith_sep]. unfold is_sep.
  apply bool_decide_eq_false_2. intros ->. by vm_compute in Hc.
Qed.

(** The file is written inside the directory it is joined to. *)
Lemma join_filename dir collection :
  join dir [gltf_filename collection] = dir +:+ gltf_filename collection
  ∨ join dir [gltf_filename collection] = dir +:+ "/" +:+ gltf_filename collection.
Proof.
  unfold join. cbn [foldl]. unfold join_step.
  rewrite gltf_filename_relative.
  destruct (bool_decide (dir = "") || endswith_sep dir); auto.
Qed.

End Paths.

(** ** One round of the loop *)

Ltac file_effects :=
  repeat first [ assumption | apply Forall_nil_2 | apply Forall_cons_2 | apply Forall_app_2 ];
  try (unfold host_file_effect; cbn [touches_files]; intros ?;
       first [ done | left; by eexists | right; by do 2 eexists ]).

Lemma gltf_calls_app (l1 l2 : list Event) :
  gltf_calls (l1 ++ l2) = gltf_calls l1 ++ gltf_calls l2.
Proof.
  induction l1 as [|e l1 IH]; [done|].
  destruct e; cbn [gltf_calls app]; by rewrite ?IH.
Qed.

Ltac quiet_events :=
  repeat first [ assumption | apply Forall_nil_2 | apply Forall_cons_2 ];
  reflexivity.

Lemma filter_ext_elem_of {A} (P Q : A → Prop)
    `{!∀ x, Decision (P x), !∀ x, Decision (Q x)} (l : list A) :
  (∀ x, x ∈ l → P x ↔ Q x) → filter P l = filter Q l.
Proof.
  induction l as [|x l IH]; intros Hext; [done|].
  rewrite !filter_cons, IH.
  - apply decide_ext, Hext, list_elem_of_here.
  - intros y Hy. by apply Hext, list_elem_of_further.
Qed.

Lemma filter_all {A} (P : A → Prop) `{!∀ x, Decision (P x)} (l : list A) :
  (∀ x, x ∈ l → P x) → filter P l = l.
Proof.
  induction l as [|x l IH]; intros Hall; [done|].
  rewrite filter_cons_True by apply Hall, list_elem_of_here.
  f_equal. apply IH. intros y Hy. by apply Hall, list_elem_of_further.
Qed.

(** *** What the run keeps of the host's data *)

Lemma kept_refl w : kept w w.
Proof. by repeat split. Qed.

Lemma kept_trans w1 w2 w3 : kept w1 w2 → kept w2 w3 → kept w1 w3.
Proof. unfold kept. intros (-> & -> & -> & -> & -> & -> & ->). done. Qed.

Lemma exportable_scene (w w' : World) collection :
  scene_objects w' = scene_objects w → exportable w' collection = exportable w collection.
Proof. unfold exportable, objects_in_scene. by intros ->. Qed.

Lemma shown_kept w w0 collection w' :
  kept w w0 → shown w0 collection w' → shown w collection w'.
Proof.
  intros Hk (Hexp & Hlayer & Hk' & Hsel & Hact).
  pose proof (kept_trans _ _ _ Hk Hk') as Hk2.
  destruct Hk as (_ & Hso & _ & _ & _ & Hvl & Hsl).
  unfold shown, exportable, objects_in_scene in *.
  rewrite Hso, ?Hvl, ?Hsl in *. done.
Qed.

(** *** Selecting *)

Lemma set_select_same (w : World) : set_select (select w) w = w.
Proof. by destruct w. Qed.

Lemma set_select_twice (s1 s2 : gset string) (w : World) :
  set_select s2 (set_select s1 w) = set_select s2 w.
Proof. done. Qed.

(** [select_set] comes back for the objects of the view layer only, and
    then sets the flag of a selectable object and nothing else. *)
Lemma select_set_spec obj r r' :
  select_set obj r = Some r' →
  obj ∈ view_layer_objects (world r)
  ∧ log r' = log r
  ∧ exported_count r' = exported_count r
  ∧ world r'
    = set_select ((if bool_decide (obj ∈ selectable_objects (world r))
                   then {[obj]} else ∅) ∪ select (world r)) (world r).
Proof.
  unfold select_set. case_bool_decide as Hlayer; [|done].
  case_bool_decide; intros [= <-]; (do 3 (split; [done|])); [done|].
  by rewrite (left_id_L ∅ (∪)), set_select_same.
Qed.

Lemma select_set_returns obj r :
  obj ∈ view_layer_objects (world r) → is_Some (select_set obj r).
Proof.
  intros Hlayer. unfold select_set.
  rewrite (bool_decide_eq_true_2 _ Hlayer). case_bool_decide; by eexists.
Qed.

(** The selecting loop: the objects of the scene are collected, each of
    them is in the view layer when the loop comes back, and the selectable
    ones among them are then selected. *)
Lemma select_in_scene_spec (objs : list string) : ∀ r acc r' selected,
  select_in_scene objs r acc = Some (r', selected) →
  selected = acc ++ filter (λ obj, obj ∈ scene_objects (world r)) objs
  ∧ log r' = log r
  ∧ exported_count r' = exported_count r
  ∧ world r'
    = set_select
        (list_to_set (filter (λ obj, obj ∈ selectable_objects (world r))
                        (filter (λ obj, obj ∈ scene_objects (world r)) objs))
         ∪ select (world r)) (world r)
  ∧ Forall (λ obj, obj ∈ view_layer_objects (world r))
      (filter (λ obj, obj ∈ scene_objects (world r)) objs).
Proof.
  induction objs as [|obj objs IH]; intros r acc r' selected.
  - intros [= <- <-]. cbn.
    by rewrite (right_id_L [] (++)), (left_id_L ∅ (∪)), set_select_same.
  - cbn [select_in_scene]. case_bool_decide as Hin.
    + destruct (select_set obj r) as [r1|] eqn:Hset; [|done].
      apply select_set_spec in Hset as (Hlayer & Hlog1 & Hcount1 & Hw1).
      intros (-> & Hlog & Hcount & Hw & Hall)%IH.
      rewrite Hw1 in Hw, Hall |- *.
      cbn [scene_objects selectable_objects view_layer_objects select set_select]
        in Hw, Hall |- *.
      rewrite (filter_cons_True (λ o, o ∈ scene_objects (world r))) by done.
      split; [by rewrite <- (assoc_L (++))|].
      split; [congruence|]. split; [congruence|].
      split; [|by constructor].
      rewrite Hw, set_select_twice. f_equal. rewrite filter_cons.
      destruct (decide (obj ∈ selectable_objects (world r))) as [Hsel|Hsel].
      * rewrite (bool_decide_eq_true_2 _ Hsel). cbn [list_to_set].
        by rewrite (assoc_L (∪)), (comm_L (∪) _ {[obj]}).
      * by rewrite (bool_decide_eq_false_2 _ Hsel), (left_id_L ∅ (∪)).
    + intros (-> & -> & -> & -> & Hall)%IH.
      by rewrite (filter_cons_False (λ o, o ∈ scene_objects (world r))) by done.
Qed.

Lemma select_in_scene_returns (objs : list string) : ∀ r acc,
  (∀ obj, obj ∈ objs → obj ∈ scene_objects (world r) →
          obj ∈ view_layer_objects (world r)) →
  is_Some (select_in_scene objs r acc).
Proof.
  induction objs as [|obj objs IH]; intros r acc Hlayer; [by eexists|].
  cbn [select_in_scene]. case_bool_decide as Hin.
  - destruct (select_set_returns obj r) as [r1 Hset];
      [by apply Hlayer; [apply list_elem_of_here|]|].
    rewrite Hset. apply select_set_spec in Hset as (_ & _ & _ & Hw1).
    apply IH. rewrite Hw1. cbn. intros o Ho. by apply Hlayer, list_elem_of_further.
  - apply IH. intros o Ho. by apply Hlayer, list_elem_of_further.
Qed.

(** The restoring loop is the selecting loop without its list. *)
Lemma reselect_select_in_scene (objs : list string) : ∀ r acc,
  reselect objs r = fst <$> select_in_scene objs r acc.
Proof.
  induction objs as [|obj objs IH]; intros r acc; [done|].
  cbn [reselect select_in_scene]. case_bool_decide; [|apply IH].
  destruct (select_set obj r); [apply IH|done].
Qed.

Lemma reselect_spec (objs : list string) r r' :
  reselect objs r = Some r' →
  log r' = log r
  ∧ exported_count r' = exported_count r
  ∧ world r'
    = set_select
        (list_to_set (filter (λ obj, obj ∈ selectable_objects (world r))
                        (filter (λ obj, obj ∈ scene_objects (world r)) objs))
         ∪ select (world r)) (world r).
Proof.
  rewrite (reselect_select_in_scene objs r []).
  destruct (select_in_scene objs r []) as [[r1 selected]|] eqn:Hsel; [|done].
  intros [= <-]. by apply select_in_scene_spec in Hsel as (_ & ? & ? & ? & _).
Qed.

Lemma reselect_returns (objs : list string) r :
  (∀ obj, obj ∈ objs → obj ∈ scene_objects (world r) →
          obj ∈ view_layer_objects (world r)) →
  is_Some (reselect objs r).
Proof.
  intros Hlayer. rewrite (reselect_select_in_scene objs r []).
  destruct (select_in_scene_returns objs r [] Hlayer) as [[r1 selected] ->].
  by eexists.
Qed.

(** The selecting loop of a round that finds an object of the scene shows
    the collection, once the first object found is made active. *)
Lemma round_shown collection r r1 first rest :
  export_flag collection = true →
  select_in_scene (objects collection) (select_all_deselect r) []
  = Some (r1, first :: rest) →
  shown (world r) collection (set_active (Some first) (world r1))
  ∧ mode (world r1) = mode (world r)
  ∧ collections (world r1) = collections (world r)
  ∧ log r1 = log r ++ [SelectAll "DESELECT"]
  ∧ exported_count r1 = exported_count r.
Proof.
  intros Hflag (Hs & Hlog & Hcount & Hw & Hlayer)%select_in_scene_spec.
  cbn [select_all_deselect emit on_world world log exported_count set_select
       scene_objects selectable_objects view_layer_objects select app]
    in Hs, Hlog, Hcount, Hw, Hlayer.
  rewrite (right_id_L ∅ (∪)) in Hw.
  split; [|by rewrite Hw].
  unfold shown, exportable, objects_in_scene. rewrite Hflag, Hw, <- Hs.
  rewrite <- Hs in Hlayer. rewrite bool_decide_eq_false_2 by done.
  split; [done|]. split; [done|]. split; [by repeat split|]. by split.
Qed.

(** *** Logs whose calls of the exporter are answered by it *)

Lemma answered_app gltf at_call l tail :
  answered gltf at_call l → gltf_calls tail = [] →
  answered gltf at_call (l ++ tail).
Proof.
  intros Hl. induction tail as [|e tail IH] using rev_ind; intros Hcalls.
  - by rewrite (right_id_L [] (++)).
  - rewrite gltf_calls_app in Hcalls. apply app_eq_nil in Hcalls as [Htail He].
    rewrite (assoc_L (++)). apply answered_other; [by apply IH|]. by destruct e.
Qed.

Section Rounds.

Variable export_scene_gltf : list Event → World → string → OpResult.
Variable os_makedirs : list Event → World → string → OpResult.

Lemma export_directory_spec base us collection r r1 dir :
  export_directory os_makedirs base us collection r = Some (r1, dir) →
  export_dir base us (collections (world r)) collection dir
  ∧ world r1 = world r ∧ exported_count r1 = exported_count r
  ∧ ∃ seg, log r1 = log r ++ seg ∧ gltf_calls seg = []
           ∧ Forall host_file_effect seg
           ∧ (us = true → has_parent (collections (world r)) (name collection) →
              Makedirs dir true ∈ seg)
           ∧ (us = false → seg = []).
Proof.
  unfold export_directory, export_dir. destruct us.
  - destruct (get_collection_hierarchy_path _ _) as [hierarchy|] eqn:Hh; [|done].
    pose proof Hh as (ext & Hext & _ & Hnil)%find_parents_lineage.
    cbn [app] in Hext. subst ext.
    destruct (reverse hierarchy) as [|root below] eqn:Hrev.
    + intros [= <- <-]. split; [by exists hierarchy; rewrite Hrev|].
      do 2 (split; [done|]). exists []. rewrite (right_id_L [] (++)).
      do 3 (split; [done|]). split; [|done]. intros _ Hp.
      assert (hierarchy = []) as Hn
        by (by rewrite <- (reverse_involutive hierarchy), Hrev).
      by apply Hnil in Hn.
    + destruct (os_makedirs _ _ _); [|done].
      intros [= <- <-].
      change (OsPath.join_step base (OsPath.join root below))
        with (OsPath.join base [OsPath.join root below]).
      rewrite join_assoc. split; [by exists hierarchy; rewrite Hrev|].
      do 2 (split; [done|]).
      eexists [Makedirs _ true; Print _].
      split; [cbn; by rewrite <- (assoc_L (++))|].
      split; [done|]. split; [file_effects|]. split; [|done].
      intros _ _. apply elem_of_cons. by left.
  - intros [= <- <-]. do 3 (split; [done|]). exists [].
    rewrite (right_id_L [] (++)). by do 4 (split; [done|]).
Qed.

(** The directory is found and made when the walk ends and [os.makedirs]
    does not raise; without folders nothing is asked of either. *)
Lemma export_directory_returns base us collection r :
  (us = true → acyclic (collections (world r)) ∧ never_raises os_makedirs) →
  is_Some (export_directory os_makedirs base us collection r).
Proof.
  intros Hus. unfold export_directory. destruct us; [|by eexists].
  destruct Hus as [Hacyc Hmk]; [done|].
  destruct (get_collection_hierarchy_path_ends _ collection Hacyc) as [h ->].
  destruct (reverse h); [by eexists|]. rewrite Hmk. by eexists.
Qed.

Lemma quiet_calls (seg : list Event) : Forall quiet seg → gltf_calls seg = [].
Proof.
  induction 1 as [|e seg He _ IH]; [done|]. by destruct e.
Qed.

Lemma quiet_file_effects (seg : list Event) :
  Forall quiet seg → Forall host_file_effect seg.
Proof.
  intros Hq. eapply Forall_impl; [exact Hq|].
  unfold quiet, host_file_effect. intros e He. by rewrite He.
Qed.

(** A round, unfolded.  Either the collection is not exportable, and the
    round only deselects and prints; or the exporter is shown the collection
    and its answer is logged and counted. *)
Lemma export_collection_unfold base us collection r r' :
  export_collection export_scene_gltf os_makedirs base us collection r = Some r' →
  (exportable (world r) collection = false
   ∧ kept (world r) (world r')
   ∧ mode (world r') = mode (world r)
   ∧ exported_count r' = exported_count r
   ∧ ∃ seg, log r' = log r ++ seg ∧ Forall quiet seg)
  ∨ (∃ r2 dir seg text,
       shown (world r) collection (world r2)
       ∧ mode (world r2) = mode (world r)
       ∧ export_dir base us (collections (world r)) collection dir
       ∧ log r2 = log r ++ SelectAll "DESELECT" :: seg
       ∧ gltf_calls seg = []
       ∧ Forall host_file_effect seg
       ∧ (us = true → has_parent (collections (world r)) (name collection) →
          Makedirs dir true ∈ seg)
       ∧ (us = false → seg = [])
       ∧ let file := OsPath.join dir [gltf_filename collection] in
         let out := export_scene_gltf (log r2) (world r2) file in
         world r' = world r2
         ∧ log r' = log r2 ++ [ExportSceneGltf file true true out; Print text]
         ∧ exported_count r'
           = length (successful [(file, out)]) + exported_count r).
Proof.
  unfold export_collection.
  destruct (export_flag collection) eqn:Hflag; cbn [negb].
  2:{ intros [= <-]. left. unfold exportable. rewrite Hflag.
      split; [done|]. split; [apply kept_refl|]. do 2 (split; [done|]).
      eexists [_]. split; [reflexivity|quiet_events]. }
  case_bool_decide as Hobjs.
  { intros [= <-]. left. unfold exportable, objects_in_scene. rewrite Hobjs.
    split; [by rewrite andb_false_r|]. split; [apply kept_refl|].
    do 2 (split; [done|]). eexists [_]. split; [reflexivity|quiet_events]. }
  destruct (select_in_scene (objects collection) (select_all_deselect r) [])
    as [[r1 [|first rest]]|] eqn:Hsel; [| |done].
  { apply select_in_scene_spec in Hsel as (Hs & Hlog & Hcount & Hw & _).
    cbn [select_all_deselect emit on_world world log exported_count set_select
         scene_objects selectable_objects select app] in Hs, Hlog, Hcount, Hw.
    intros [= <-]. left. unfold exportable, objects_in_scene. rewrite <- Hs.
    split; [by rewrite andb_false_r|]. cbn [emit world log exported_count].
    rewrite Hw, Hlog, Hcount. split; [by repeat split|]. do 2 (split; [done|]).
    eexists [_; _]. rewrite <- (assoc_L (++)). split; [reflexivity|quiet_events]. }
  apply (round_shown _ _ _ _ _ Hflag) in Hsel
    as (Hshown & Hmode & Hcs & Hlog & Hcount).
  destruct (export_directory _ base us collection _) as [[r2 dir]|] eqn:Hdir; [|done].
  apply export_directory_spec in Hdir
    as (Hd & Hw2 & Hc2 & seg & Hl2 & Hcalls & Hfs & Hmk & Hflat).
  cbn [on_world world log exported_count set_active collections mode]
    in Hd, Hw2, Hc2, Hl2, Hmk.
  rewrite Hcs in Hd, Hmk. rewrite <- Hw2 in Hshown.
  rewrite Hlog, <- (assoc_L (++)) in Hl2. rewrite Hcount in Hc2.
  replace (mode (world r1)) with (mode (world r2)) in Hmode by (by rewrite Hw2).
  intros Hout. right.
  destruct (export_scene_gltf (log r2) (world r2)
              (OsPath.join dir [safe_collection_name (name collection) +:+ ".gltf"]))
    as [|e] eqn:Hgltf; injection Hout as <-;
    eexists r2, dir, seg, _; (do 8 (split; [done|])); cbn zeta;
    unfold gltf_filename; rewrite Hgltf;
    cbn [count_export emit world log exported_count]; rewrite <- (assoc_L (++));
    (split; [done|]); (split; [reflexivity|]); by rewrite Hc2.
Qed.

(** What a round needs to come back: with folders, a walk that ends and a
    directory that can be made; and, for a flagged collection, that its
    objects of the scene are in the view layer. *)
Lemma export_collection_returns base us collection r :
  (us = true → exportable (world r) collection = true →
   acyclic (collections (world r)) ∧ never_raises os_makedirs) →
  (export_flag collection = true →
   ∀ obj, obj ∈ objects collection → obj ∈ scene_objects (world r) →
          obj ∈ view_layer_objects (world r)) →
  is_Some (export_collection export_scene_gltf os_makedirs base us collection r).
Proof.
  intros Hus Hlayer. unfold export_collection.
  destruct (export_flag collection) eqn:Hflag; cbn [negb]; [|by eexists].
  case_bool_decide; [by eexists|].
  destruct (select_in_scene_returns (objects collection) (select_all_deselect r) [])
    as [[r1 selected] Hsel]; [by apply Hlayer|].
  rewrite Hsel.
  apply select_in_scene_spec in Hsel as (Hs & _ & _ & Hw & _).
  cbn [select_all_deselect emit on_world world set_select scene_objects app] in Hs, Hw.
  destruct selected as [|first rest]; [by eexists|].
  destruct (export_directory_returns base us collection
              (on_world (set_active (Some first)) r1)) as [[r2 dir] ->].
  { intros Hstruct. cbn [on_world world set_active collections]. rewrite Hw.
    apply Hus; [done|]. unfold exportable, objects_in_scene.
    by rewrite Hflag, <- Hs. }
  destruct (export_scene_gltf _ _ _); by eexists.
Qed.

(** The summary of a round that the claims are stated with. *)
Lemma export_collection_round base us collection r r' :
  export_collection export_scene_gltf os_makedirs base us collection r = Some r' →
  ∃ seg, round_summary base us collection r r' seg.
Proof.
  intros [(Hexp & Hk & _ & Hcount & seg & Hlog & Hq)
         |(r2 & dir & seg & text & Hshown & _ & Hd & Hl2 & Hcalls & Hfs & Hmk & _
           & Hw & Hlog & Hcount)]%export_collection_unfold;
    unfold round_summary.
  - exists seg. rewrite Hexp, (quiet_calls seg Hq).
    destruct Hk as (? & ? & _). do 3 (split; [done|]).
    split; [by apply quiet_file_effects|done].
  - destruct Hshown as (Hexp & _ & (Hcs & Hso & _) & _).
    cbn zeta in Hw, Hlog, Hcount. rewrite Hexp.
    set (out := export_scene_gltf (log r2) (world r2) _) in Hlog, Hcount.
    clearbody out.
    eexists (SelectAll "DESELECT" :: seg ++ [ExportSceneGltf _ true true out; Print text]).
    rewrite Hlog, Hl2, Hw. cbn [app]. rewrite <- !(assoc_L (++)). cbn [app].
    split; [reflexivity|]. do 2 (split; [done|]). split; [file_effects|].
    cbn [gltf_calls]. rewrite gltf_calls_app, Hcalls. cbn [gltf_calls app].
    split; [exact Hcount|]. exists dir, out. do 2 (split; [done|]).
    intros Hus Hp. apply elem_of_cons. right. apply elem_of_app. left. by apply Hmk.
Qed.

Lemma export_collection_kept base us collection r r' :
  export_collection export_scene_gltf os_makedirs base us collection r = Some r' →
  kept (world r) (world r') ∧ mode (world r') = mode (world r).
Proof.
  intros [(_ & Hk & Hm & _)
         |(r2 & dir & seg & text & (_ & _ & Hk & _) & Hm & _ & _ & _ & _ & _ & _
           & Hw & _)]%export_collection_unfold; [done|].
  cbn zeta in Hw. by rewrite Hw.
Qed.

(** A round adds answered calls only, each made with the collection shown. *)
Lemma export_collection_answered (at_call : World → Prop) base us collection r r' :
  (∀ w', shown (world r) collection w' → mode w' = mode (world r) → at_call w') →
  export_collection export_scene_gltf os_makedirs base us collection r = Some r' →
  answered export_scene_gltf at_call (log r) →
  answered export_scene_gltf at_call (log r').
Proof.
  intros Hcall
    [(_ & _ & _ & _ & seg & -> & Hq)
    |(r2 & dir & seg & text & Hshown & Hmode & _ & Hl2 & Hcalls & _ & _ & _
      & _ & Hlog & _)]%export_collection_unfold Hans.
  - by apply answered_app, quiet_calls.
  - cbn zeta in Hlog. rewrite Hlog.
    change [ExportSceneGltf ?f true true ?o; Print text]
      with ([ExportSceneGltf f true true o] ++ [Print text]).
    rewrite (assoc_L (++)). apply answered_other; [|done].
    apply answered_call; [|by apply Hcall].
    rewrite Hl2. by apply answered_app.
Qed.

End Rounds.

(** ** The loop and the whole run *)

Section Runs.

Variable export_scene_gltf : list Event → World → string → OpResult.
Variable restore_mode_set : list Event → World → string → OpResult.
Variable os_makedirs : list Event → World → string → OpResult.

Local Abbreviation body := (export_collection export_scene_gltf os_makedirs).

Lemma for_collections_rounds base us (w : World) : ∀ cs r r',
  collections (world r) = collections w →
  scene_objects (world r) = scene_objects w →
  for_collections (body base us) cs r = Some r' →
  let segs := round_logs (body base us) cs r in
  log r' = log r ++ concat segs
  ∧ collections (world r') = collections w
  ∧ scene_objects (world r') = scene_objects w
  ∧ exported_count r' = length (successful (gltf_calls (concat segs))) + exported_count r
  ∧ Forall2 (round_result base us w) cs segs.
Proof.
  induction cs as [|c cs IH]; intros r r' Hcs Hso.
  - intros [= <-]. cbn. rewrite (right_id_L [] (++)). by repeat split.
  - cbn [for_collections round_logs].
    destruct (body base us c r) as [r1|] eqn:Hbody; [|done].
    intros Hrest.
    apply export_collection_round in Hbody
      as (seg & Hlog & Hcs1 & Hso1 & Hfs & Hcount & Hexp).
    rewrite Hcs in Hcs1, Hexp. rewrite Hso in Hso1.
    rewrite (exportable_scene w (world r)) in Hexp by done.
    destruct (IH r1 r' Hcs1 Hso1 Hrest) as (Hlog' & Hcs' & Hso' & Hcount' & Hall).
    rewrite Hlog, drop_app_length. cbn [concat].
    split; [by rewrite Hlog', Hlog, <- (assoc_L (++))|].
    do 2 (split; [done|]). split.
    + rewrite gltf_calls_app. unfold successful in *.
      rewrite filter_app, length_app, Hcount', Hcount. lia.
    + by constructor.
Qed.

Lemma for_collections_kept base us : ∀ cs r r',
  for_collections (body base us) cs r = Some r' →
  kept (world r) (world r') ∧ mode (world r') = mode (world r).
Proof.
  induction cs as [|c cs IH]; intros r r'.
  - intros [= <-]. split; [apply kept_refl|done].
  - cbn [for_collections].
    destruct (body base us c r) as [r1|] eqn:Hbody; [|done].
    apply export_collection_kept in Hbody as [Hk1 Hm1].
    intros [Hk Hm]%IH. split; [by eapply kept_trans|congruence].
Qed.

Lemma for_collections_answered base us (w : World) : ∀ cs r r',
  kept w (world r) →
  mode (world r) = loop_mode w →
  (∀ c, c ∈ cs → c ∈ collections w) →
  for_collections (body base us) cs r = Some r' →
  answered export_scene_gltf (call_data w) (log r) →
  answered export_scene_gltf (call_data w) (log r').
Proof.
  induction cs as [|c cs IH]; intros r r' Hk Hm Hin; [by intros [= <-]|].
  cbn [for_collections].
  destruct (body base us c r) as [r1|] eqn:Hbody; [|done].
  intros Hrest Hans.
  pose proof (export_collection_kept _ _ _ _ _ _ _ Hbody) as [Hk1 Hm1].
  apply (IH r1 r'); [| | |done|].
  - by eapply kept_trans.
  - congruence.
  - intros c' Hc'. by apply Hin, list_elem_of_further.
  - eapply export_collection_answered; [|done..].
    intros w' Hshown Hmode. exists c. split; [apply Hin, list_elem_of_here|].
    split; [by eapply shown_kept|congruence].
Qed.

(** The loop comes back when its [select_set]s do and, if folders are
    asked for and a collection is exportable, the walks end and the
    directories can be made. *)
Lemma for_collections_returns base us (w : World) : ∀ cs r,
  kept w (world r) →
  (∀ c, c ∈ cs → c ∈ collections w) →
  (us = true → ∀ c, c ∈ collections w → exportable w c = true →
   acyclic (collections w) ∧ never_raises os_makedirs) →
  loop_objects_in_view_layer w →
  is_Some (for_collections (body base us) cs r).
Proof.
  induction cs as [|c cs IH]; intros r Hk Hin Hus Hlayer; [by eexists|].
  cbn [for_collections].
  pose proof Hk as (Hcs & Hso & _ & _ & _ & Hvl & _).
  destruct (export_collection_returns export_scene_gltf os_makedirs base us c r)
    as [r1 Hbody].
  { rewrite (exportable_scene w (world r)), Hcs by done.
    intros Hstruct. apply Hus; [done|]. apply Hin, list_elem_of_here. }
  { rewrite Hso, Hvl. intros Hflag obj. apply Hlayer; [|done].
    apply Hin, list_elem_of_here. }
  rewrite Hbody. apply IH; [|by intros c' Hc'; apply Hin, list_elem_of_further|done..].
  eapply kept_trans; [done|]. by apply export_collection_kept in Hbody as [? _].
Qed.

(** The restore phase: what it leaves in the host's data and what it adds
    to the log, the summary last. *)
Lemma restore_and_report_spec base us original_selection original_active
    original_mode r r' :
  restore_and_report restore_mode_set base us original_selection
    original_active original_mode r = Some r' →
  select (world r')
  = list_to_set
      (filter (λ obj, obj ∈ selectable_objects (world r))
         (filter (λ obj, obj ∈ scene_objects (world r)) original_selection))
  ∧ active (world r') = original_active
  ∧ kept (world r) (world r')
  ∧ exported_count r' = exported_count r
  ∧ (if bool_decide (is_Some original_active)
        && negb (bool_decide (original_mode = "OBJECT"))
     then mode (world r') = original_mode
          ∨ (mode (world r') = mode (world r)
             ∧ ∃ e, ModeSet original_mode (Raised e) ∈ log r')
     else mode (world r') = mode (world r))
  ∧ ∃ tail, log r' = log r ++ tail
            ∧ Forall quiet tail
            ∧ last tail
              = Some (Print (String "010" "Export complete! "
                             +:+ Py.str_of_nat (exported_count r)
                             +:+ " collections exported to: " +:+ base
                             +:+ (if us then " (with folder structure)" else ""))).
Proof.
  unfold restore_and_report.
  destruct (reselect original_selection (select_all_deselect r)) as [r0|] eqn:Hre;
    [|done].
  apply reselect_spec in Hre as (Hlog & Hcount & Hw).
  cbn [select_all_deselect emit on_world world log exported_count set_select
       scene_objects selectable_objects select] in Hlog, Hcount, Hw.
  rewrite (right_id_L ∅ (∪)), set_select_twice in Hw.
  destruct (bool_decide (is_Some original_active)
            && negb (bool_decide (original_mode = "OBJECT")));
    [destruct (restore_mode_set _ _ _) as [|e]|];
    intros [= <-];
    cbn [emit on_world world log exported_count];
    rewrite Hw, Hlog, Hcount;
    (split; [done|]); (split; [done|]); (split; [by repeat split|]);
    (split; [done|]).
  - split; [by left|]. eexists [_; _; _; _]. rewrite <- !(assoc_L (++)).
    split; [reflexivity|]. split; [quiet_events|done].
  - split.
    + right. split; [done|]. exists e.
      apply elem_of_app. left. apply elem_of_app. left. apply elem_of_app. right.
      apply list_elem_of_here.
    + eexists [_; _; _; _]. rewrite <- !(assoc_L (++)).
      split; [reflexivity|]. split; [quiet_events|done].
  - split; [done|]. eexists [_; _]. rewrite <- !(assoc_L (++)).
    split; [reflexivity|]. split; [quiet_events|done].
Qed.

Lemma restore_and_report_returns base us original_selection original_active
    original_mode r :
  (∀ obj, obj ∈ original_selection → obj ∈ scene_objects (world r) →
          obj ∈ view_layer_objects (world r)) →
  is_Some (restore_and_report restore_mode_set base us original_selection
             original_active original_mode r).
Proof.
  intros Hlayer. unfold restore_and_report.
  destruct (reselect_returns original_selection (select_all_deselect r)) as [r0 ->];
    [exact Hlayer|by eexists].
Qed.

Lemma before_loop_quiet (w : World) : Forall quiet (log (before_loop w)).
Proof.
  unfold before_loop.
  destruct (bool_decide (is_Some (active w)) && negb (bool_decide (mode w = "OBJECT")));
    cbn; quiet_events.
Qed.

Lemma before_loop_kept (w : World) : kept w (world (before_loop w)).
Proof.
  unfold before_loop.
  destruct (bool_decide (is_Some (active w)) && negb (bool_decide (mode w = "OBJECT")));
    by repeat split.
Qed.

Lemma before_loop_mode (w : World) : mode (world (before_loop w)) = loop_mode w.
Proof.
  unfold before_loop, loop_mode. destruct (active w) as [a|]; cbn [is_Some].
  - rewrite (bool_decide_eq_true_2 (is_Some (Some a))) by (by eexists).
    cbn [andb]. by case_bool_decide.
  - by rewrite (bool_decide_eq_false_2 (is_Some None)) by (by intros [? ?]).
Qed.

Lemma before_loop_spec (w : World) :
  collections (world (before_loop w)) = collections w
  ∧ scene_objects (world (before_loop w)) = scene_objects w
  ∧ exported_count (before_loop w) = 0
  ∧ gltf_calls (log (before_loop w)) = []
  ∧ Forall host_file_effect (log (before_loop w)).
Proof.
  destruct (before_loop_kept w) as (? & ? & _). do 2 (split; [done|]).
  split; [|split; [apply quiet_calls|apply quiet_file_effects]; apply before_loop_quiet].
  unfold before_loop.
  by destruct (bool_decide (is_Some (active w)) && negb (bool_decide (mode w = "OBJECT"))).
Qed.

(** The objects the user had selected can be selected again. *)
Lemma selected_objects_spec (w : World) obj :
  obj ∈ selected_objects w
  ↔ obj ∈ scene_objects w ∧ obj ∈ select w
    ∧ obj ∈ view_layer_objects w ∧ obj ∈ selectable_objects w.
Proof.
  unfold selected_objects, can_select. rewrite list_elem_of_filter. tauto.
Qed.

End Runs.

Section Results.

Variable export_scene_gltf : list Event → World → string → OpResult.
Variable restore_mode_set : list Event → World → string → OpResult.
Variable os_makedirs : list Event → World → string → OpResult.

Local Abbreviation run :=
  (export_collections_to_gltf export_scene_gltf restore_mode_set os_makedirs).
Local Abbreviation rounds := (export_rounds export_scene_gltf os_makedirs).

(** The rounds that were run did what [round_result] says, also when a
    later round does not come back. *)
Lemma round_logs_result base us (w : World) : ∀ cs r i c seg,
  collections (world r) = collections w →
  scene_objects (world r) = scene_objects w →
  cs !! i = Some c →
  round_logs (export_collection export_scene_gltf os_makedirs base us) cs r !! i
  = Some seg →
  round_result base us w c seg.
Proof.
  induction cs as [|c0 cs IH]; intros r i c seg Hcs Hso; [done|].
  cbn [round_logs].
  destruct (export_collection _ _ base us c0 r) as [r1|] eqn:Hbody; [|done].
  apply export_collection_round in Hbody
    as (seg0 & Hlog & Hcs1 & Hso1 & Hfs & Hcount & Hexp).
  rewrite Hcs in Hcs1, Hexp. rewrite Hso in Hso1.
  rewrite (exportable_scene w (world r)) in Hexp by done.
  rewrite Hlog, drop_app_length.
  destruct i as [|i]; cbn.
  - by intros [= <-] [= <-].
  - by apply IH.
Qed.

Lemma export_rounds_result export_path w i c seg :
  collections w !! i = Some c →
  rounds export_path w !! i = Some seg →
  round_result (resolve_export_path export_path w)
    (use_collection_structure (gltf_export_props w)) w c seg.
Proof.
  destruct (before_loop_spec w) as (Hcs & Hso & _).
  by apply round_logs_result.
Qed.

(** A run that returns: its log is the events before the loop, the rounds
    and the restore phase; the exporter is called in the rounds only. *)
Lemma export_run_spec export_path w res :
  run export_path w = Some res →
  Forall2 (round_result (resolve_export_path export_path w)
             (use_collection_structure (gltf_export_props w)) w)
    (collections w) (rounds export_path w)
  ∧ gltf_calls (log res) = gltf_calls (concat (rounds export_path w))
  ∧ Forall host_file_effect (log res)
  ∧ exported_count res = length (successful (gltf_calls (log res)))
  ∧ last (log res)
    = Some (Print (String "010" "Export complete! "
                   +:+ Py.str_of_nat (exported_count res)
                   +:+ " collections exported to: "
                   +:+ resolve_export_path export_path w
                   +:+ (if use_collection_structure (gltf_export_props w)
                        then " (with folder structure)" else "")))
  ∧ select (world res) = list_to_set (selected_objects w)
  ∧ active (world res) = active w
  ∧ collections (world res) = collections w
  ∧ scene_objects (world res) = scene_objects w.
Proof.
  unfold export_collections_to_gltf, export_rounds.
  destruct (before_loop_spec w) as (Hcs & Hso & Hzero & Hpre & Hprefs).
  destruct (for_collections _ _ _) as [r|] eqn:Hloop; [|done].
  intros Hres.
  pose proof (for_collections_kept _ _ _ _ _ _ _ Hloop) as [Hk _].
  pose proof (kept_trans _ _ _ (before_loop_kept w) Hk)
    as (_ & _ & _ & _ & _ & _ & Hsl).
  apply (for_collections_rounds _ _ _ _ w) in Hloop
    as (Hlog & Hcs' & Hso' & Hcount & Hall); [|done..].
  apply restore_and_report_spec in Hres
    as (Hsel & Hact & (Hcs2 & Hso2 & _) & Hcount2 & _ & tail & Hlog2 & Hq & Hlast).
  split; [done|].
  assert (Hcalls : gltf_calls (log res) = gltf_calls (concat
            (round_logs (export_collection export_scene_gltf os_makedirs
               (resolve_export_path export_path w)
               (use_collection_structure (gltf_export_props w)))
               (collections w) (before_loop w)))).
  { rewrite Hlog2, Hlog, !gltf_calls_app, Hpre, (quiet_calls tail Hq).
    by rewrite (right_id_L [] (++)). }
  split; [done|]. split.
  { rewrite Hlog2, Hlog. apply Forall_app_2; [apply Forall_app_2; [done|]|].
    - apply Forall_concat. eapply Forall2_Forall_r; [exact Hall|].
      apply Forall_forall. by intros c _ seg [? _].
    - by apply quiet_file_effects. }
  split; [by rewrite Hcalls, Hcount2, Hcount, Hzero, Nat.add_0_r|].
  split.
  { rewrite Hlog2, Hcount2. destruct tail as [|e tail]; [done|].
    by rewrite last_app_cons. }
  split.
  { rewrite Hsel, Hso', Hsl. f_equal.
    rewrite (filter_all (λ obj, obj ∈ scene_objects w)).
    - apply filter_all. by intros obj (_ & _ & _ & ?)%selected_objects_spec.
    - by intros obj (? & _)%selected_objects_spec. }
  by rewrite Hcs2, Hso2.
Qed.

(** A run that returns keeps the host's data, and puts the mode back
    unless the [mode_set] of the restore phase raised. *)
Lemma export_run_kept export_path w res :
  run export_path w = Some res →
  kept w (world res)
  ∧ (mode (world res) = mode w
     ∨ (mode (world res) = "OBJECT"
        ∧ ∃ e, ModeSet (mode w) (Raised e) ∈ log res)).
Proof.
  unfold export_collections_to_gltf.
  destruct (for_collections _ _ _) as [r|] eqn:Hloop; [|done].
  apply for_collections_kept in Hloop as [Hk Hm].
  intros (_ & _ & Hk' & _ & Hr & _)%restore_and_report_spec.
  split; [exact (kept_trans _ _ _ (kept_trans _ _ _ (before_loop_kept w) Hk) Hk')|].
  rewrite Hm in Hr. revert Hr.
  unfold before_loop, context_mode.
  destruct (active w) as [a|]; cbn [is_Some].
  - rewrite (bool_decide_eq_true_2 (is_Some (Some a))) by (by eexists).
    cbn [andb]. case_bool_decide as Hobj; cbn [negb].
    + intros ->. by left.
    + intros [Hr|[Hr He]]; [by left|]. right. by split.
  - rewrite (bool_decide_eq_false_2 (is_Some None)) by (by intros [? ?]).
    cbn [andb]. cbn. intros ->. by left.
Qed.

(** In a run that returns, every call of the exporter in the log carries
    the exporter's answer, given with one of the collections shown. *)
Lemma export_run_answered export_path w res :
  run export_path w = Some res →
  answered export_scene_gltf (call_data w) (log res).
Proof.
  unfold export_collections_to_gltf.
  destruct (for_collections _ _ _) as [r|] eqn:Hloop; [|done].
  intros (_ & _ & _ & _ & _ & tail & -> & Hq & _)%restore_and_report_spec.
  apply answered_app; [|by apply quiet_calls].
  eapply for_collections_answered;
    [apply before_loop_kept|apply before_loop_mode|done|exact Hloop|].
  apply (answered_app _ _ []); [constructor|apply quiet_calls, before_loop_quiet].
Qed.

(** The run returns when no host call raises outside a [try]: the
    [select_set]s of the loop find their objects in the view layer and, if
    folders are asked for and a collection is exportable, the hierarchy is
    acyclic and [os.makedirs] does not raise. *)
Lemma export_returns export_path w :
  (use_collection_structure (gltf_export_props w) = true →
   ∀ c, c ∈ collections w → exportable w c = true →
   acyclic (collections w) ∧ never_raises os_makedirs) →
  loop_objects_in_view_layer w →
  is_Some (run export_path w).
Proof.
  intros Hus Hlayer. unfold export_collections_to_gltf.
  destruct (for_collections_returns export_scene_gltf os_makedirs
              (resolve_export_path export_path w)
              (use_collection_structure (gltf_export_props w)) w
              (collections w) (before_loop w)) as [r Hloop];
    [apply before_loop_kept|done..|].
  rewrite Hloop. apply restore_and_report_returns.
  apply for_collections_kept in Hloop as [Hk _].
  pose proof (kept_trans _ _ _ (before_loop_kept w) Hk)
    as (_ & _ & _ & _ & _ & -> & _).
  by intros obj (_ & _ & ? & _)%selected_objects_spec _.
Qed.

End Results.

(** ** Acyclic hierarchies *)

Lemma ranked_parent rank data p c :
  ranked rank data = true → parent_of data p c → rank p < rank c.
Proof.
  unfold ranked. rewrite forallb_forall.
  intros Hr (parent & Hin%list_elem_of_In & <- & Hc%list_elem_of_In).
  specialize (Hr _ Hin). rewrite forallb_forall in Hr.
  by apply Nat.ltb_lt, Hr.
Qed.

Lemma ranked_acyclic rank data : ranked rank data = true → acyclic data.
Proof.
  intros Hr c Hc.
  assert (Hlt : ∀ a b, tc (parent_of data) a b → rank a < rank b).
  { induction 1 as [a b H|a b d H _ IH].
    - by eapply ranked_parent.
    - pose proof (ranked_parent _ _ _ _ Hr H). lia. }
  specialize (Hlt _ _ Hc). lia.
Qed.

(** The names of a lineage are strict ancestors, so in an acyclic hierarchy
    none of them comes twice and none is the collection itself. *)
Lemma lineage_ancestors data c l :
  lineage data c l → ∀ a, a ∈ l → tc (parent_of data) a c.
Proof.
  induction 1 as [c _|c p l Hp _ IH]; intros a; [by intros ?%elem_of_nil|].
  intros [Ha| ->%list_elem_of_singleton]%elem_of_app.
  - eapply tc_r; [by apply IH|done].
  - by apply tc_once.
Qed.

Lemma lineage_NoDup data c l :
  acyclic data → lineage data c l → NoDup (c :: l).
Proof.
  intros Hacyc. induction 1 as [c _|c p l Hp Hl IH].
  - apply NoDup_singleton.
  - apply NoDup_cons. split.
    + intros Hin. apply (Hacyc c). by eapply lineage_ancestors; [econstructor|].
    + apply NoDup_app. apply NoDup_cons in IH as [Hpl Hnd].
      split; [done|]. split; [|apply NoDup_singleton].
      by intros x Hx ->%list_elem_of_singleton.
Qed.

Lemma lineage_unique data c l1 :
  single_parent data → lineage data c l1 → ∀ l2, lineage data c l2 → l1 = l2.
Proof.
  intros Hsp. induction 1 as [c Hno|c p l Hp _ IH]; intros l2 H2.
  - destruct H2 as [|c p' l' Hp' _]; [done|]. destruct Hno. by exists p'.
  - destruct H2 as [c Hno|c p' l' Hp' Hl'].
    + destruct Hno. by exists p.
    + assert (p = p') as <- by (by eapply Hsp). by rewrite (IH l').
Qed.

(** ** Calls of the exporter across rounds *)

Lemma gltf_calls_concat (segs : list (list Event)) :
  gltf_calls (concat segs) = concat (gltf_calls <$> segs).
Proof.
  induction segs as [|seg segs IH]; [done|].
  cbn. by rewrite gltf_calls_app, IH.
Qed.

Lemma gltf_calls_delete (segs : list (list Event)) : ∀ i seg,
  segs !! i = Some seg → gltf_calls seg = [] →
  gltf_calls (concat (delete i segs)) = gltf_calls (concat segs).
Proof.
  induction segs as [|s segs IH]; intros i seg; [done|].
  destruct i as [|i]; cbn.
  - intros [= ->] H. by rewrite gltf_calls_app, H.
  - intros Hi H. rewrite !gltf_calls_app. f_equal. by apply (IH i seg).
Qed.

Lemma exportable_spec w collection :
  exportable w collection = true
  ↔ custom_properties collection !! "export_gltf" = Some true
    ∧ ∃ obj, obj ∈ objects collection ∧ obj ∈ scene_objects w.
Proof.
  unfold exportable, export_flag, objects_in_scene.
  rewrite andb_true_iff, negb_true_iff, bool_decide_eq_false. split.
  - intros [Hflag Hobjs]. split.
    + by destruct (custom_properties collection !! "export_gltf") as [[]|].
    + destruct (filter _ _) as [|obj l] eqn:Hf; [done|].
      exists obj. apply and_comm, (list_elem_of_filter (λ o, o ∈ scene_objects w)).
      rewrite Hf. apply list_elem_of_here.
  - intros [-> (obj & Hin & Hscene)]. split; [done|].
    intros Hf. assert (obj ∈ filter (λ o, o ∈ scene_objects w) (objects collection)) as Hobj
      by (by apply list_elem_of_filter).
    rewrite Hf in Hobj. by apply elem_of_nil in Hobj.
Qed.

(** * The claims *)

Section Claims.

Variable export_scene_gltf : list Event → World → string → OpResult.
Variable restore_mode_set : list Event → World → string → OpResult.
Variable os_makedirs : list Event → World → string → OpResult.

Local Abbreviation run :=
  (export_collections_to_gltf export_scene_gltf restore_mode_set os_makedirs).
Local Abbreviation rounds := (export_rounds export_scene_gltf os_makedirs).

(** C1, as amended.  The round of a collection whose ["export_gltf"]
    property is [True] and which has an object that is in the current scene
    calls the exporter once, with a file named after the collection's
    sanitised name, and the round of any other collection does not call it.
    A run that returns has run the round of every collection, and its calls
    of the exporter are those of the rounds.  The run returns when no host
    call raises outside a [try]: the objects the loop selects are in the
    view layer, so that [select_set] does not raise, and, where folders are
    asked for, the hierarchy is acyclic and [os.makedirs] does not raise. *)
Theorem exportable_collections_exported export_path w :
  (∀ i c seg,
     collections w !! i = Some c →
     rounds export_path w !! i = Some seg →
     ((custom_properties c !! "export_gltf" = Some true
       ∧ ∃ obj, obj ∈ objects c ∧ obj ∈ scene_objects w) →
      ∃ dir out,
        gltf_calls seg
        = [(OsPath.join dir [safe_collection_name (name c) +:+ ".gltf"], out)])
     ∧ (¬ (custom_properties c !! "export_gltf" = Some true
           ∧ ∃ obj, obj ∈ objects c ∧ obj ∈ scene_objects w) →
        gltf_calls seg = []))
  ∧ (∀ res,
       run export_path w = Some res →
       length (rounds export_path w) = length (collections w)
       ∧ gltf_calls (log res) = concat (gltf_calls <$> rounds export_path w))
  ∧ ((use_collection_structure (gltf_export_props w) = true →
      acyclic (collections w) ∧ never_raises os_makedirs) →
     loop_objects_in_view_layer w →
     is_Some (run export_path w)).
Proof.
  split; [|split].
  - intros i c seg Hc Hseg.
    pose proof (export_rounds_result _ _ _ _ _ _ _ Hc Hseg) as [_ Hres].
    destruct (exportable w c) eqn:Hexp.
    + split; [|by intros []; apply exportable_spec].
      intros _. destruct Hres as (dir & out & _ & ? & _). by exists dir, out.
    + split; [|done]. intros ?%exportable_spec. congruence.
  - intros res (Hall & Hcalls & _)%export_run_spec.
    split; [symmetry; by eapply Forall2_length|].
    by rewrite Hcalls, gltf_calls_concat.
  - intros Hus Hlayer. apply export_returns; [|done].
    intros Hstruct c _ _. by apply Hus.
Qed.

(** C2.  A collection whose ["export_gltf"] property is absent or [False]
    at the start of the run is never handed to the exporter: its round
    makes no call, and the calls of the whole run are those of the other
    rounds. *)
Theorem unflagged_never_exported export_path w res i c seg :
  run export_path w = Some res →
  collections w !! i = Some c →
  custom_properties c !! "export_gltf" = None
  ∨ custom_properties c !! "export_gltf" = Some false →
  rounds export_path w !! i = Some seg →
  gltf_calls seg = []
  ∧ gltf_calls (log res) = gltf_calls (concat (delete i (rounds export_path w))).
Proof.
  intros (_ & Hcalls & _)%export_run_spec Hc Hflag Hseg.
  pose proof (export_rounds_result _ _ _ _ _ _ _ Hc Hseg) as [_ Hres].
  assert (Hoff : exportable w c = false).
  { unfold exportable, export_flag. by destruct Hflag as [-> | ->]. }
  rewrite Hoff in Hres. split; [done|].
  by rewrite Hcalls, (gltf_calls_delete _ i seg).
Qed.

(** C4.  With [use_collection_structure] on, the round of an exported
    collection calls the exporter with a file inside the export path joined
    with the names of ancestors of the collection, from a root down to a
    parent; the names are none when the collection has no parent, so that
    the file is then directly inside the export path, and otherwise the
    directory is created first.  Where every collection has at most one
    parent these names are the only lineage there is. *)
Theorem folders_mirror_nesting export_path w i c seg :
  use_collection_structure (gltf_export_props w) = true →
  collections w !! i = Some c →
  exportable w c = true →
  rounds export_path w !! i = Some seg →
  ∃ ancestors out,
    let dir := OsPath.join (resolve_export_path export_path w) ancestors in
    lineage (collections w) (name c) ancestors
    ∧ (ancestors = [] ↔ ¬ has_parent (collections w) (name c))
    ∧ (single_parent (collections w) →
       ∀ l, lineage (collections w) (name c) l → l = ancestors)
    ∧ gltf_calls seg = [(OsPath.join dir [gltf_filename c], out)]
    ∧ (OsPath.join dir [gltf_filename c] = dir +:+ gltf_filename c
       ∨ OsPath.join dir [gltf_filename c] = dir +:+ "/" +:+ gltf_filename c)
    ∧ (¬ has_parent (collections w) (name c) →
       dir = resolve_export_path export_path w)
    ∧ (ancestors ≠ [] → Makedirs dir true ∈ seg).
Proof.
  intros Hus Hc Hexp Hseg.
  pose proof (export_rounds_result _ _ _ _ _ _ _ Hc Hseg) as [_ Hres].
  rewrite Hexp, Hus in Hres.
  destruct Hres as (dir & out & (h & Hh & ->) & Hcalls & Hmk).
  apply find_parents_lineage in Hh as (ext & Hext & Hlin & Hnil).
  cbn [app] in Hext. subst ext.
  exists (reverse h), out. cbn zeta.
  assert (Hrev : reverse h = [] ↔ h = []).
  { split; [|by intros ->]. intros Hr. by rewrite <- (reverse_involutive h), Hr. }
  split; [done|]. split; [by rewrite Hrev|].
  split; [intros Hsp l Hl; by apply (lineage_unique _ _ _ Hsp Hl)|].
  split; [done|]. split; [apply join_filename|].
  split; [by intros ->%Hnil|].
  intros Hne. apply Hmk; [done|].
  destruct (existsb (is_child_of c) (collections w)) eqn:Hex.
  - by apply parent_found_iff in Hex.
  - apply not_true_iff_false in Hex. rewrite parent_found_iff in Hex.
    by apply Hnil, Hrev in Hex.
Qed.

(** C5.  The exporter is called in the rounds of the loop only, the rounds
    follow the collections in iteration order, and a round calls the
    exporter at most once: a call that raised is the only call of its
    round, so nothing is tried a second time. *)
Theorem one_attempt_per_collection export_path w res :
  run export_path w = Some res →
  length (rounds export_path w) = length (collections w)
  ∧ gltf_calls (log res) = concat (gltf_calls <$> rounds export_path w)
  ∧ Forall (λ seg, length (gltf_calls seg) ≤ 1) (rounds export_path w)
  ∧ ∀ i seg file e,
      rounds export_path w !! i = Some seg →
      (file, Raised e) ∈ gltf_calls seg →
      gltf_calls seg = [(file, Raised e)].
Proof.
  intros (Hall & Hcalls & _)%export_run_spec.
  assert (Hone : ∀ i seg, rounds export_path w !! i = Some seg →
            gltf_calls seg = [] ∨ ∃ call, gltf_calls seg = [call]).
  { intros i seg Hseg.
    destruct (Forall2_lookup_r _ _ _ _ _ Hall Hseg) as (c & _ & _ & Hres).
    destruct (exportable w c); [|by left].
    destruct Hres as (dir & out & _ & -> & _). right. by eexists. }
  split; [symmetry; by eapply Forall2_length|].
  split; [by rewrite Hcalls, gltf_calls_concat|]. split.
  - apply Forall_lookup. intros i seg Hseg.
    destruct (Hone i seg Hseg) as [-> | [call ->]]; cbn; lia.
  - intros i seg file e Hseg Hin.
    destruct (Hone i seg Hseg) as [Hn | [call Hn]]; rewrite Hn in Hin |- *.
    + by apply elem_of_nil in Hin.
    + by apply list_elem_of_singleton in Hin as ->.
Qed.

(** C7.  Every event of a run that reaches the file system is a
    [makedirs] or a call of the host's exporter; the code writes to no file
    itself. *)
Theorem only_host_file_effects export_path w res :
  run export_path w = Some res →
  (∀ e, e ∈ log res → touches_files e = true →
     (∃ path, e = Makedirs path true)
     ∨ (∃ file out, e = ExportSceneGltf file true true out))
  ∧ ∀ path content, FileWrite path content ∉ log res.
Proof.
  intros (_ & _ & Hfs & _)%export_run_spec.
  rewrite Forall_forall in Hfs. split.
  - intros e He. by apply Hfs.
  - intros path content Hin.
    by destruct (Hfs _ Hin eq_refl) as [[? ?]|(? & ? & ?)].
Qed.

(** C8.  Whatever the exporter raises, and for whichever collections, the
    run returns, provided no other host call raises outside a [try] (the
    objects the loop selects are in the view layer and, where folders are
    asked for, the hierarchy is acyclic and [os.makedirs] does not raise).
    Every call in the log carries the exporter's own answer, given with one
    collection shown; every exportable collection still gets its call;
    [exported_count] is the number of calls that came back; and the restore
    phase is reached, selection and active object put back and the summary
    printed last. *)
Theorem exporter_failure_contained export_path w :
  (use_collection_structure (gltf_export_props w) = true →
   acyclic (collections w) ∧ never_raises os_makedirs) →
  loop_objects_in_view_layer w →
  ∃ res,
    run export_path w = Some res
    ∧ answered export_scene_gltf (call_data w) (log res)
    ∧ (∀ i c, collections w !! i = Some c → exportable w c = true →
         ∃ seg file out, rounds export_path w !! i = Some seg
                         ∧ gltf_calls seg = [(file, out)])
    ∧ gltf_calls (log res) = concat (gltf_calls <$> rounds export_path w)
    ∧ exported_count res = length (successful (gltf_calls (log res)))
    ∧ select (world res) = list_to_set (selected_objects w)
    ∧ active (world res) = active w
    ∧ last (log res)
      = Some (Print (String "010" "Export complete! "
                     +:+ Py.str_of_nat (exported_count res)
                     +:+ " collections exported to: "
                     +:+ resolve_export_path export_path w
                     +:+ (if use_collection_structure (gltf_export_props w)
                          then " (with folder structure)" else ""))).
Proof.
  intros Hus Hlayer.
  destruct (export_returns export_scene_gltf restore_mode_set os_makedirs
              export_path w) as [res Hres]; [by intros ? ? _ _; apply Hus|done|].
  exists res. split; [done|].
  split; [by eapply export_run_answered|].
  apply export_run_spec in Hres
    as (Hall & Hcalls & _ & Hcount & Hlast & Hsel & Hact & _).
  split.
  { intros i c Hc Hexp.
    destruct (Forall2_lookup_l _ _ _ _ _ Hall Hc) as (seg & Hseg & _ & Hr).
    rewrite Hexp in Hr. destruct Hr as (dir & out & _ & ? & _).
    by exists seg, (OsPath.join dir [gltf_filename c]), out. }
  split; [by rewrite Hcalls, gltf_calls_concat|]. done.
Qed.

(** C9.  After a run that returns, the objects that were selected before
    it and are in the current scene are selected, the active object is the
    one that was active before, and the selection the user sees is the one
    there was. *)
Theorem selection_restored export_path w res :
  run export_path w = Some res →
  (∀ obj, obj ∈ selected_objects w → obj ∈ scene_objects (world res) →
     obj ∈ select (world res))
  ∧ active (world res) = active w
  ∧ selected_objects (world res) = selected_objects w.
Proof.
  intros Hres.
  pose proof Hres as (_ & _ & _ & _ & _ & Hsel & Hact & _ & Hso)%export_run_spec.
  split; [|split; [done|]].
  - intros obj Hobj _. rewrite Hsel. by apply elem_of_list_to_set.
  - assert (Hk : kept w (world res)) by (by eapply export_run_kept).
    destruct Hk as (_ & _ & _ & _ & _ & Hvl & Hsl).
    unfold selected_objects. rewrite Hso.
    apply filter_ext_elem_of. intros obj Hobj. unfold can_select.
    rewrite Hsel, Hvl, Hsl, elem_of_list_to_set, selected_objects_spec. tauto.
Qed.

End Claims.

(** C10.  On an acyclic hierarchy the walk of
    [get_collection_hierarchy_path] ends, with the same answer for any
    larger fuel; every step goes to a parent of the collection before, so no
    name comes twice; and the answer is the empty list exactly when no
    collection has the given one as a child. *)
Theorem hierarchy_walk_terminates data collection :
  acyclic data →
  ∃ path,
    get_collection_hierarchy_path data collection = Some path
    ∧ (∀ fuel, length data < fuel → find_parents fuel data collection [] = Some path)
    ∧ lineage data (name collection) (reverse path)
    ∧ NoDup (name collection :: path)
    ∧ (path = [] ↔ ¬ has_parent data (name collection)).
Proof.
  intros Hacyc.
  destruct (get_collection_hierarchy_path_ends data collection Hacyc) as [path Hpath].
  exists path. split; [done|].
  pose proof Hpath as (ext & Hext & Hlin & Hnil)%find_parents_lineage.
  cbn [app] in Hext. subst ext.
  split; [|split; [done|split; [|done]]].
  - intros fuel Hfuel.
    apply (find_parents_fuel_le data (S (length data))); [lia|done].
  - pose proof (lineage_NoDup _ _ _ Hacyc Hlin) as Hnd.
    apply NoDup_cons in Hnd as [Hc Hnd]. apply NoDup_cons. split.
    + by rewrite elem_of_reverse in Hc.
    + by rewrite reverse_Permutation in Hnd.
Qed.

(** ** The toggle operator *)

Lemma assign_export_flag_insert collection_name value : ∀ cs c,
  lookup_collection collection_name cs = Some c →
  ∃ i, cs !! i = Some c
       ∧ name c = collection_name
       ∧ assign_export_flag collection_name value cs
         = <[i := set_export_flag value c]> cs.
Proof.
  unfold lookup_collection.
  induction cs as [|c0 cs IH]; intros c; [done|].
  cbn [List.find assign_export_flag]. case_bool_decide as Hname.
  - intros [= <-]. by exists 0.
  - intros (i & Hi & Hn & ->)%IH. by exists (S i).
Qed.

Lemma lookup_collection_present collection_name cs :
  (∃ c, c ∈ cs ∧ name c = collection_name) →
  is_Some (lookup_collection collection_name cs).
Proof.
  intros (c & Hin%list_elem_of_In & Hname). unfold lookup_collection.
  destruct (List.find _ cs) as [c'|] eqn:Hfind; [by eexists|].
  pose proof (find_none _ _ Hfind _ Hin) as Hc.
  by apply bool_decide_eq_false in Hc.
Qed.

(** C6.  For a name that is in [bpy.data.collections], the toggle operator
    stores the negation of the collection's flag (an absent flag counting as
    [False]) under ["export_gltf"] of that collection and changes nothing
    else: not the rest of that collection, not any other collection, not
    the rest of the host's data. *)
Theorem toggle_inverts_one_flag collection_name w :
  (∃ c, c ∈ collections w ∧ name c = collection_name) →
  let w' := (GLTF_OT_toggle_collection_execute collection_name w).1 in
  ∃ i c c',
    lookup_collection collection_name (collections w) = Some c
    ∧ collections w !! i = Some c
    ∧ name c = collection_name
    ∧ collections w' !! i = Some c'
    ∧ custom_properties c' !! "export_gltf"
      = Some (negb (default false (custom_properties c !! "export_gltf")))
    ∧ (∀ key, key ≠ "export_gltf" →
         custom_properties c' !! key = custom_properties c !! key)
    ∧ name c' = name c ∧ objects c' = objects c ∧ children c' = children c
    ∧ (∀ j, j ≠ i → collections w' !! j = collections w !! j)
    ∧ w' = set_collections (collections w') w.
Proof.
  intros [c Hc]%lookup_collection_present. cbn zeta.
  unfold GLTF_OT_toggle_collection_execute. rewrite Hc. cbn [fst].
  destruct (assign_export_flag_insert collection_name (negb (export_flag c)) _ _ Hc)
    as (i & Hi & Hname & ->).
  exists i, c, (set_export_flag (negb (export_flag c)) c).
  do 3 (split; [done|]). cbn [collections set_collections].
  split; [apply list_lookup_insert_eq; by eapply lookup_lt_Some|].
  split; [apply lookup_insert_eq|].
  split; [intros key Hkey; by apply lookup_insert_ne|].
  do 3 (split; [done|]).
  split; [intros j Hj; by apply list_lookup_insert_ne|done].
Qed.

(** * The claims on the example scenes *)

(** C1 as first stated fails: a flagged collection with an object is not
    exported when none of its objects is in the current scene. *)
Lemma flagged_collection_outside_scene_skipped :
  ∃ c res,
    collections other_scene = [c]
    ∧ custom_properties c !! "export_gltf" = Some true
    ∧ objects c = ["Cube"]
    ∧ export_collections_to_gltf always_returns always_returns always_returns
        (Some "/out") other_scene
      = Some res
    ∧ log res = [ SelectAll "DESELECT"; SelectAll "DESELECT";
                  Print "No valid objects in collection: Props";
                  SelectAll "DESELECT";
                  Print (String "010" "Export complete! 0 collections exported to: /out") ]
    ∧ gltf_calls (log res) = [].
Proof. do 2 eexists. by vm_compute. Qed.

(** C3 on the code: two flagged collections of different names, each with
    an object in the scene, are exported to one and the same file. *)
Example colliding_names_share_a_file :
  name <$> collections twins = ["Rock.001"; "Rock001"]
  ∧ exportable twins <$> collections twins = [true; true]
  ∧ gltf_calls <$> export_rounds always_returns always_returns (Some "/out") twins
    = [ [("/out/Rock001.gltf", Returned)]; [("/out/Rock001.gltf", Returned)] ]
  ∧ exported_count
      <$> export_collections_to_gltf always_returns always_returns always_returns
            (Some "/out") twins
    = Some 2.
Proof. by vm_compute. Qed.

Lemma studio_acyclic : acyclic (collections studio).
Proof. apply (ranked_acyclic studio_rank). vm_compute; reflexivity. Qed.

Lemma scene_in_view_layer (w : World) :
  Forall (λ obj, obj ∈ view_layer_objects w) (scene_objects w) →
  loop_objects_in_view_layer w.
Proof.
  rewrite Forall_forall. intros Hall c obj _ _ _. apply Hall.
Qed.

Lemma studio_in_view_layer : loop_objects_in_view_layer studio.
Proof.
  apply scene_in_view_layer, (bool_decide_unpack _). vm_compute; reflexivity.
Qed.

Lemma exportable_collections_exported_witness :
  (use_collection_structure (gltf_export_props studio) = true →
   acyclic (collections studio) ∧ never_raises always_returns)
  ∧ loop_objects_in_view_layer studio
  ∧ ∃ res,
      studio_run = Some res
      ∧ length studio_rounds = length (collections studio)
      ∧ gltf_calls (log res) = concat (gltf_calls <$> studio_rounds).
Proof.
  assert (Hus : use_collection_structure (gltf_export_props studio) = true →
                acyclic (collections studio) ∧ never_raises always_returns).
  { intros _. split; [exact studio_acyclic|]. intros l w' path. reflexivity. }
  split; [exact Hus|]. split; [exact studio_in_view_layer|].
  destruct (exportable_collections_exported studio_exporter always_returns
              always_returns None studio) as (_ & Hrun & Hreturns).
  destruct (Hreturns Hus studio_in_view_layer) as [res Hres].
  exists res. split; [exact Hres|]. exact (Hrun res Hres).
Defined.

Lemma unflagged_never_exported_witness :
  ∃ res c seg,
    studio_run = Some res
    ∧ collections studio !! 3 = Some c
    ∧ custom_properties c !! "export_gltf" = Some false
    ∧ studio_rounds !! 3 = Some seg
    ∧ gltf_calls seg = []
    ∧ gltf_calls (log res) = gltf_calls (concat (delete 3 studio_rounds)).
Proof.
  do 3 eexists. do 4 (split; [vm_compute; reflexivity|]).
  eapply (unflagged_never_exported studio_exporter always_returns always_returns
            None studio).
  - vm_compute; reflexivity.
  - vm_compute; reflexivity.
  - right. vm_compute; reflexivity.
  - vm_compute; reflexivity.
Defined.

Lemma folders_mirror_nesting_witness :
  ∃ c seg,
    use_collection_structure (gltf_export_props studio) = true
    ∧ collections studio !! 2 = Some c
    ∧ exportable studio c = true
    ∧ studio_rounds !! 2 = Some seg
    ∧ ∃ ancestors out,
        lineage (collections studio) (name c) ancestors
        ∧ gltf_calls seg
          = [(OsPath.join (OsPath.join (resolve_export_path None studio) ancestors)
                [gltf_filename c], out)].
Proof.
  do 2 eexists. do 4 (split; [vm_compute; reflexivity|]).
  destruct (folders_mirror_nesting studio_exporter always_returns None studio 2
              (flagged "Small" ["Bolt"] [])
              [SelectAll "DESELECT"; Makedirs "/home/artist/Root/Props" true;
               Print "Created/using folder structure: Root/Props";
               ExportSceneGltf "/home/artist/Root/Props/Small.gltf" true true Returned;
               Print "Exported collection 'Small' to: /home/artist/Root/Props/Small.gltf"])
    as (ancestors & out & Hlin & _ & _ & Hcalls & _ & _);
    [vm_compute; reflexivity..|].
  by exists ancestors, out.
Defined.

Lemma one_attempt_per_collection_witness :
  ∃ res,
    studio_run = Some res
    ∧ Forall (λ seg, length (gltf_calls seg) ≤ 1) studio_rounds.
Proof.
  eexists. split; [vm_compute; reflexivity|].
  destruct (one_attempt_per_collection studio_exporter always_returns always_returns
              None studio _ ltac:(vm_compute; reflexivity)) as (_ & _ & Hone & _).
  exact Hone.
Defined.

Lemma toggle_inverts_one_flag_witness :
  (∃ c, c ∈ collections studio ∧ name c = "Root")
  ∧ ∃ i c',
      collections (GLTF_OT_toggle_collection_execute "Root" studio).1 !! i = Some c'
      ∧ name c' = "Root"
      ∧ custom_properties c' !! "export_gltf" = Some true.
Proof.
  assert (Hin : ∃ c, c ∈ collections studio ∧ name c = "Root").
  { eexists. split; [apply list_elem_of_here|reflexivity]. }
  split; [exact Hin|].
  destruct (toggle_inverts_one_flag "Root" studio Hin)
    as (i & c & c' & Hlook & _ & _ & Hi & Hflag & _ & Hname & _).
  vm_compute in Hlook. injection Hlook as <-.
  exists i, c'. split; [exact Hi|]. split; [exact Hname|]. exact Hflag.
Defined.

Lemma only_host_file_effects_witness :
  ∃ res,
    studio_run = Some res
    ∧ ∀ path content, FileWrite path content ∉ log res.
Proof.
  eexists. split; [vm_compute; reflexivity|].
  destruct (only_host_file_effects studio_exporter always_returns always_returns
              None studio _ ltac:(vm_compute; reflexivity)) as (_ & Hnone).
  exact Hnone.
Defined.

Lemma exporter_failure_contained_witness :
  (use_collection_structure (gltf_export_props studio) = true →
   acyclic (collections studio) ∧ never_raises always_returns)
  ∧ loop_objects_in_view_layer studio
  ∧ ∃ res,
      studio_run = Some res
      ∧ answered studio_exporter (call_data studio) (log res)
      ∧ exported_count res = length (successful (gltf_calls (log res))).
Proof.
  assert (Hus : use_collection_structure (gltf_export_props studio) = true →
                acyclic (collections studio) ∧ never_raises always_returns).
  { intros _. split; [exact studio_acyclic|]. intros l w' path. reflexivity. }
  split; [exact Hus|]. split; [exact studio_in_view_layer|].
  destruct (exporter_failure_contained studio_exporter always_returns always_returns
              None studio Hus studio_in_view_layer)
    as (res & Hres & Hans & _ & _ & Hcount & _).
  by exists res.
Defined.

Lemma selection_restored_witness :
  ∃ res,
    studio_run = Some res
    ∧ active (world res) = active studio
    ∧ selected_objects (world res) = selected_objects studio.
Proof.
  eexists. split; [vm_compute; reflexivity|].
  destruct (selection_restored studio_exporter always_returns always_returns
              None studio _ ltac:(vm_compute; reflexivity)) as (_ & Hact & Hsel).
  by split.
Defined.

Lemma hierarchy_walk_terminates_witness :
  acyclic (collections studio)
  ∧ ∃ path,
      get_collection_hierarchy_path (collections studio) (flagged "Small" ["Bolt"] [])
      = Some path
      ∧ NoDup ("Small" :: path).
Proof.
  assert (Hacyc : acyclic (collections studio)).
  { apply (ranked_acyclic studio_rank). vm_compute; reflexivity. }
  split; [exact Hacyc|].
  destruct (hierarchy_walk_terminates (collections studio)
              (flagged "Small" ["Bolt"] []) Hacyc)
    as (path & Hpath & _ & _ & Hnd & _).
  by exists path.
Defined.

(** * Further properties *)

(** ** Setting and toggling flags *)

Lemma export_flag_set value collection :
  export_flag (set_export_flag value collection) = value.
Proof. unfold export_flag, set_export_flag. cbn. by rewrite lookup_insert_eq. Qed.

Lemma set_export_flag_twice v1 v2 collection :
  set_export_flag v2 (set_export_flag v1 collection) = set_export_flag v2 collection.
Proof. unfold set_export_flag. cbn. by rewrite insert_insert_eq. Qed.

Lemma set_export_flag_same value collection :
  custom_properties collection !! "export_gltf" = Some value →
  set_export_flag value collection = collection.
Proof.
  intros Hflag. destruct collection as [n props objs kids].
  unfold set_export_flag. cbn in *. by rewrite insert_id.
Qed.

Lemma lookup_assign_export_flag collection_name value cs :
  lookup_collection collection_name (assign_export_flag collection_name value cs)
  = set_export_flag value <$> lookup_collection collection_name cs.
Proof.
  unfold lookup_collection. induction cs as [|c cs IH]; [done|].
  cbn [assign_export_flag List.find]. case_bool_decide as Hname.
  - cbn [List.find name set_export_flag]. by rewrite bool_decide_eq_true_2.
  - cbn [List.find]. by rewrite bool_decide_eq_false_2.
Qed.

Lemma assign_export_flag_twice collection_name v1 v2 cs :
  assign_export_flag collection_name v2 (assign_export_flag collection_name v1 cs)
  = assign_export_flag collection_name v2 cs.
Proof.
  induction cs as [|c cs IH]; [done|].
  cbn [assign_export_flag]. case_bool_decide as Hname.
  - cbn [assign_export_flag name set_export_flag].
    rewrite bool_decide_eq_true_2 by done. by rewrite set_export_flag_twice.
  - cbn [assign_export_flag]. rewrite bool_decide_eq_false_2 by done. by rewrite IH.
Qed.

Lemma assign_export_flag_same collection_name value cs c :
  lookup_collection collection_name cs = Some c →
  custom_properties c !! "export_gltf" = Some value →
  assign_export_flag collection_name value cs = cs.
Proof.
  unfold lookup_collection. induction cs as [|c0 cs IH]; [done|].
  cbn [assign_export_flag List.find]. case_bool_decide as Hname.
  - intros [= ->] Hflag. by rewrite set_export_flag_same.
  - intros Hfind Hflag. by rewrite IH.
Qed.

Lemma lookup_collection_absent collection_name cs :
  (∀ c, c ∈ cs → name c ≠ collection_name) →
  lookup_collection collection_name cs = None.
Proof.
  intros Hno. unfold lookup_collection.
  destruct (List.find _ cs) as [c|] eqn:Hfind; [|done].
  apply find_some in Hfind as [Hin%list_elem_of_In Hname%bool_decide_eq_true].
  by destruct (Hno c Hin).
Qed.

Lemma set_collections_same w : set_collections (collections w) w = w.
Proof. by destruct w. Qed.

(** X1.  Pressing a checkbox twice is setting the flag to the value it
    reads as: the second run of the toggle operator undoes the first, up to
    an absent flag having become an explicit [False]. *)
Theorem toggle_twice_sets_current collection_name w :
  let current :=
    from_option export_flag false (lookup_collection collection_name (collections w)) in
  (GLTF_OT_toggle_collection_execute collection_name
     (GLTF_OT_toggle_collection_execute collection_name w).1).1
  = (toggle_collection_export collection_name current w).1.
Proof.
  cbn zeta. unfold GLTF_OT_toggle_collection_execute, toggle_collection_export.
  destruct (lookup_collection collection_name (collections w)) as [c|] eqn:Hc.
  - cbn [fst collections set_collections from_option].
    rewrite lookup_assign_export_flag, Hc. cbn [fmap option_fmap option_map fst].
    rewrite export_flag_set, negb_involutive.
    cbn [collections set_collections]. by rewrite assign_export_flag_twice.
  - cbn [fst]. by rewrite Hc.
Qed.

(** X2.  Writing the value a flag already holds changes nothing:
    [toggle_collection_export] with the stored value leaves the host's data
    as it was. *)
Theorem toggle_collection_export_same collection_name enabled w c :
  lookup_collection collection_name (collections w) = Some c →
  custom_properties c !! "export_gltf" = Some enabled →
  (toggle_collection_export collection_name enabled w).1 = w.
Proof.
  intros Hc Hflag. unfold toggle_collection_export. rewrite Hc. cbn [fst].
  rewrite (assign_export_flag_same _ _ _ c) by done.
  apply set_collections_same.
Qed.

(** X3.  For a name that no collection has, the toggle operator and
    [toggle_collection_export] leave the host's data untouched; the operator
    reports an error and the helper prints that the collection was not
    found. *)
Theorem unknown_collection_untouched collection_name enabled w :
  (∀ c, c ∈ collections w → name c ≠ collection_name) →
  GLTF_OT_toggle_collection_execute collection_name w
  = (w, Report "ERROR" ("Collection '" +:+ collection_name +:+ "' not found"))
  ∧ toggle_collection_export collection_name enabled w
    = (w, Print ("Collection '" +:+ collection_name +:+ "' not found")).
Proof.
  intros Hno%lookup_collection_absent.
  unfold GLTF_OT_toggle_collection_execute, toggle_collection_export.
  by rewrite Hno.
Qed.

(** X4.  [toggle_collection_export] stores the given value in the
    collection the host's lookup yields for the name, which then reads as
    that value, and changes no other collection; doing it again changes
    nothing more. *)
Theorem toggle_collection_export_sets collection_name enabled w c :
  lookup_collection collection_name (collections w) = Some c →
  let w' := (toggle_collection_export collection_name enabled w).1 in
  (∃ i, collections w !! i = Some c
        ∧ collections w' = <[i := set_export_flag enabled c]> (collections w))
  ∧ export_flag <$> lookup_collection collection_name (collections w') = Some enabled
  ∧ (toggle_collection_export collection_name enabled w').1 = w'.
Proof.
  intros Hc. cbn zeta.
  assert (Hw' : (toggle_collection_export collection_name enabled w).1
                = set_collections
                    (assign_export_flag collection_name enabled (collections w)) w).
  { unfold toggle_collection_export. by rewrite Hc. }
  rewrite Hw'. cbn [collections set_collections].
  split.
  { destruct (assign_export_flag_insert collection_name enabled _ _ Hc)
      as (i & Hi & _ & ->). by exists i. }
  rewrite lookup_assign_export_flag, Hc. cbn [fmap option_fmap option_map].
  rewrite export_flag_set. split; [done|].
  unfold toggle_collection_export. cbn [collections set_collections].
  rewrite lookup_assign_export_flag, Hc. cbn [fmap option_fmap option_map fst].
  cbn [collections set_collections]. by rewrite assign_export_flag_twice.
Qed.

(** X5.  [enable_all_collections_for_export] stores [True] in the flag of
    every collection and changes nothing else about the collections, so
    that afterwards a collection is exportable exactly when it has an
    object in the current scene. *)
Theorem enable_all_flags_every_collection w :
  let w' := (enable_all_collections_for_export w).1 in
  Forall (λ c, custom_properties c !! "export_gltf" = Some true) (collections w')
  ∧ name <$> collections w' = name <$> collections w
  ∧ objects <$> collections w' = objects <$> collections w
  ∧ children <$> collections w' = children <$> collections w
  ∧ scene_objects w' = scene_objects w
  ∧ ∀ c, c ∈ collections w' →
      exportable w' c = true ↔ ∃ obj, obj ∈ objects c ∧ obj ∈ scene_objects w.
Proof.
  cbn zeta. unfold enable_all_collections_for_export.
  cbn [fst collections set_collections scene_objects].
  assert (Hall : Forall (λ c, custom_properties c !! "export_gltf" = Some true)
                   (set_export_flag true <$> collections w)).
  { apply Forall_fmap, Forall_forall. intros c _. apply lookup_insert_eq. }
  split; [done|].
  do 3 (split; [by rewrite <- list_fmap_compose|]). split; [done|].
  intros c Hc. rewrite exportable_spec. cbn [scene_objects set_collections].
  rewrite Forall_forall in Hall. specialize (Hall c Hc). cbn beta in Hall.
  split; [by intros [_ ?]|by intros ?].
Qed.

(** ** Runs in which nothing is exportable *)

Section Quiet.

Variable export_scene_gltf : list Event → World → string → OpResult.
Variable restore_mode_set : list Event → World → string → OpResult.
Variable os_makedirs : list Event → World → string → OpResult.

Lemma for_collections_skips base us (w : World) : ∀ cs r r',
  scene_objects (world r) = scene_objects w →
  (∀ c, c ∈ cs → exportable w c = false) →
  for_collections (export_collection export_scene_gltf os_makedirs base us) cs r
  = Some r' →
  ∃ seg, log r' = log r ++ seg
         ∧ Forall quiet seg
         ∧ exported_count r' = exported_count r.
Proof.
  induction cs as [|c cs IH]; intros r r' Hso Hnone.
  - intros [= <-]. exists []. by rewrite (right_id_L [] (++)).
  - cbn [for_collections].
    destruct (export_collection _ _ base us c r) as [r1|] eqn:Hbody; [|done].
    intros Hrest.
    assert (Hoff : exportable (world r) c = false).
    { rewrite (exportable_scene w (world r)) by done.
      apply Hnone, list_elem_of_here. }
    apply export_collection_unfold in Hbody
      as [(_ & (_ & Hso1 & _) & _ & Hcount1 & seg1 & Hlog1 & Hq1)
         |(r2 & dir & seg & text & (Hexp & _) & _)]; [|congruence].
    destruct (IH r1 r') as (seg & Hlog & Hq & Hcount); [congruence| |done|].
    { intros c' Hc'. by apply Hnone, list_elem_of_further. }
    exists (seg1 ++ seg). rewrite Hlog, Hlog1, <- (assoc_L (++)).
    split; [done|]. split; [by apply Forall_app|congruence].
Qed.

(** Where nothing is exportable the loop selects nothing. *)
Lemma nothing_exportable_in_view_layer w :
  (∀ c, c ∈ collections w → exportable w c = false) →
  loop_objects_in_view_layer w.
Proof.
  intros Hnone c obj Hc Hflag Hobj Hscene.
  assert (exportable w c = true) as Hexp; [|by rewrite (Hnone c Hc) in Hexp].
  apply exportable_spec. split; [|by exists obj].
  unfold export_flag in Hflag.
  by destruct (custom_properties c !! "export_gltf") as [[]|].
Qed.

Lemma nothing_exportable_run export_path w :
  (∀ c, c ∈ collections w → exportable w c = false) →
  ∃ res,
    export_collections_to_gltf export_scene_gltf restore_mode_set os_makedirs
      export_path w
    = Some res
    ∧ Forall quiet (log res)
    ∧ exported_count res = 0.
Proof.
  intros Hnone.
  destruct (export_returns export_scene_gltf restore_mode_set os_makedirs
              export_path w) as [res Hres].
  { intros _ c Hc Hexp. by rewrite (Hnone c Hc) in Hexp. }
  { by apply nothing_exportable_in_view_layer. }
  exists res. split; [done|]. revert Hres. unfold export_collections_to_gltf.
  destruct (before_loop_spec w) as (_ & Hso & Hzero & _).
  destruct (for_collections _ _ _) as [r|] eqn:Hloop; [|done].
  apply (for_collections_skips _ _ w) in Hloop as (seg & Hlog & Hq & Hcount);
    [|done..].
  intros (_ & _ & _ & Hcount' & _ & tail & -> & Hqt & _)%restore_and_report_spec.
  split.
  - rewrite Hlog. apply Forall_app_2; [|done].
    apply Forall_app_2; [apply before_loop_quiet|done].
  - by rewrite Hcount', Hcount, Hzero.
Qed.

(** X6.  When no collection is exportable (none flagged, or none with an
    object in the scene, or no collection at all), the run returns whatever
    the hierarchy looks like, without a call of the exporter, without
    creating a directory, and with [exported_count] zero. *)
Theorem nothing_exportable_nothing_written export_path w :
  (∀ c, c ∈ collections w → exportable w c = false) →
  ∃ res,
    export_collections_to_gltf export_scene_gltf restore_mode_set os_makedirs
      export_path w
    = Some res
    ∧ gltf_calls (log res) = []
    ∧ (∀ path exist_ok, Makedirs path exist_ok ∉ log res)
    ∧ exported_count res = 0.
Proof.
  intros (res & Hres & Hq & Hcount)%(nothing_exportable_run export_path).
  exists res. split; [done|]. rewrite Forall_forall in Hq.
  split; [|split; [|done]].
  - clear Hres Hcount. induction (log res) as [|e l IH]; [done|].
    assert (He : quiet e) by apply Hq, list_elem_of_here.
    assert (Hl : gltf_calls l = [])
      by (apply IH; intros x Hx; by apply Hq, list_elem_of_further).
    by destruct e.
  - intros path exist_ok Hin. by specialize (Hq _ Hin).
Qed.

(** X7.  After [disable_all_collections_for_export] an export run does
    nothing to the file system: it returns without calling the exporter and
    without creating a directory. *)
Theorem disable_all_then_export_writes_nothing export_path w :
  ∃ res,
    export_collections_to_gltf export_scene_gltf restore_mode_set os_makedirs
      export_path (disable_all_collections_for_export w).1 = Some res
    ∧ Forall (λ e, touches_files e = false) (log res)
    ∧ exported_count res = 0.
Proof.
  apply nothing_exportable_run. intros c Hc.
  unfold disable_all_collections_for_export in Hc.
  cbn [fst collections set_collections] in Hc.
  apply list_elem_of_fmap in Hc as (c0 & -> & _).
  unfold exportable. by rewrite export_flag_set.
Qed.

End Quiet.

(** ** What a run leaves alone *)

Section Kept.

Variable export_scene_gltf : list Event → World → string → OpResult.
Variable restore_mode_set : list Event → World → string → OpResult.
Variable os_makedirs : list Event → World → string → OpResult.

(** X8.  A run changes nothing of the host's data but the selection, the
    active object and the mode: the collections with their flags, objects
    and children, the objects of the scene, the file path, the export
    settings, and which objects are in the view layer and selectable are
    after the run what they were before. *)
Theorem export_keeps_host_data export_path w res :
  export_collections_to_gltf export_scene_gltf restore_mode_set os_makedirs
    export_path w
  = Some res →
  collections (world res) = collections w
  ∧ scene_objects (world res) = scene_objects w
  ∧ filepath (world res) = filepath w
  ∧ gltf_export_props (world res) = gltf_export_props w
  ∧ desktop (world res) = desktop w
  ∧ view_layer_objects (world res) = view_layer_objects w
  ∧ selectable_objects (world res) = selectable_objects w.
Proof. by intros [Hk _]%export_run_kept. Qed.

(** X9.  The mode is put back: after a run the mode is the one before it,
    unless the [mode_set] of the restore phase raised, in which case the
    run stays in object mode. *)
Theorem mode_restored_unless_raised export_path w res :
  export_collections_to_gltf export_scene_gltf restore_mode_set os_makedirs
    export_path w
  = Some res →
  mode (world res) = mode w
  ∨ (mode (world res) = "OBJECT"
     ∧ ∃ e, ModeSet (mode w) (Raised e) ∈ log res).
Proof. by intros [_ Hm]%export_run_kept. Qed.

End Kept.

(** ** How many exports, and where to *)

Lemma length_filter_all {A} (P : A → Prop) `{!∀ x, Decision (P x)} (l : list A) :
  length (filter P l) = length l ↔ Forall P l.
Proof.
  induction l as [|x l IH]; [by split; [constructor|]|].
  rewrite filter_cons, Forall_cons. destruct (decide (P x)) as [Hx|Hx]; cbn.
  - rewrite <- IH. split; [intros [=]; by split|intros [_ ->]; done].
  - pose proof (length_filter P l). split; [lia|by intros [? _]].
Qed.

Lemma round_results_calls base us w cs segs :
  Forall2 (round_result base us w) cs segs →
  Forall2 (λ c call, ∃ dir, export_dir base us (collections w) c dir
                            ∧ call.1 = OsPath.join dir [gltf_filename c])
    (filter (λ c, exportable w c = true) cs) (gltf_calls (concat segs)).
Proof.
  induction 1 as [|c seg cs segs [_ Hres] _ IH]; [constructor|].
  cbn [concat]. rewrite gltf_calls_app, filter_cons.
  destruct (exportable w c).
  - destruct Hres as (dir & out & Hd & -> & _).
    rewrite decide_True by done. constructor; [by exists dir|done].
  - rewrite Hres. by rewrite decide_False by done.
Qed.

Lemma round_results_flat base w cs segs :
  Forall2 (round_result base false w) cs segs →
  (gltf_calls (concat segs)).*1
  = (λ c, OsPath.join base [gltf_filename c])
      <$> filter (λ c, exportable w c = true) cs.
Proof.
  induction 1 as [|c seg cs segs [_ Hres] _ IH]; [done|].
  cbn [concat]. rewrite gltf_calls_app, fmap_app, IH, filter_cons.
  destruct (exportable w c).
  - destruct Hres as (dir & out & -> & -> & _).
    by rewrite decide_True by done.
  - rewrite Hres. by rewrite decide_False by done.
Qed.

Section Counting.

Variable export_scene_gltf : list Event → World → string → OpResult.
Variable restore_mode_set : list Event → World → string → OpResult.
Variable os_makedirs : list Event → World → string → OpResult.

(** X10.  In a run that returns, the calls of the exporter are, in order,
    one for each exportable collection and none besides, each with the file
    of its collection; so [exported_count], the number of calls that came
    back, is at most the number of exportable collections, and it is their
    number exactly when no call raised. *)
Theorem exported_count_bounds export_path w res :
  export_collections_to_gltf export_scene_gltf restore_mode_set os_makedirs
    export_path w
  = Some res →
  let exportables := filter (λ c, exportable w c = true) (collections w) in
  Forall2 (λ c call,
             ∃ dir, export_dir (resolve_export_path export_path w)
                      (use_collection_structure (gltf_export_props w))
                      (collections w) c dir
                    ∧ call.1 = OsPath.join dir [gltf_filename c])
    exportables (gltf_calls (log res))
  ∧ length (gltf_calls (log res)) = length exportables
  ∧ exported_count res = length (successful (gltf_calls (log res)))
  ∧ exported_count res ≤ length exportables
  ∧ length exportables ≤ length (collections w)
  ∧ (exported_count res = length exportables
     ↔ ∀ file e, (file, Raised e) ∉ gltf_calls (log res)).
Proof.
  intros (Hall & Hcalls & _ & Hcount & _)%export_run_spec. cbn zeta.
  apply round_results_calls in Hall. rewrite <- Hcalls in Hall.
  pose proof (Forall2_length _ _ _ Hall) as Hlen.
  split; [done|]. split; [done|]. split; [done|].
  rewrite Hlen, Hcount. unfold successful.
  split; [apply length_filter|]. split.
  { rewrite <- Hlen. apply length_filter. }
  rewrite length_filter_all, Forall_forall. split.
  - intros Hok file e Hin. by specialize (Hok _ Hin).
  - intros Hno [file [|e]] Hin; [done|]. by destruct (Hno file e).
Qed.

Lemma for_collections_flat base : ∀ cs r r',
  for_collections (export_collection export_scene_gltf os_makedirs base false) cs r
  = Some r' →
  ∃ seg, log r' = log r ++ seg ∧ Forall (λ e, is_makedirs e = false) seg.
Proof.
  induction cs as [|c cs IH]; intros r r'.
  - intros [= <-]. exists []. by rewrite (right_id_L [] (++)).
  - cbn [for_collections].
    destruct (export_collection _ _ base false c r) as [r1|] eqn:Hbody; [|done].
    intros (seg & -> & Hseg)%IH.
    apply export_collection_unfold in Hbody
      as [(_ & _ & _ & _ & seg1 & -> & Hq)
         |(r2 & dir & seg1 & text & _ & _ & _ & Hl2 & _ & _ & _ & Hflat & _ & Hlog & _)].
    + exists (seg1 ++ seg). rewrite <- (assoc_L (++)). split; [done|].
      apply Forall_app_2; [|done]. eapply Forall_impl; [exact Hq|]. by intros [].
    + cbn zeta in Hlog. rewrite Hlog, Hl2, (Hflat eq_refl), <- !(assoc_L (++)).
      eexists. split; [reflexivity|]. cbn [app]. by repeat constructor.
Qed.

(** X11.  With [use_collection_structure] off, and the objects the loop
    selects in the view layer, the run returns on every hierarchy and
    whatever [os.makedirs] would do: it creates no directory, and calls the
    exporter for the exportable collections in order, each with the file of
    its sanitised name directly in the export path. *)
Theorem flat_export_writes_into_export_path export_path w :
  use_collection_structure (gltf_export_props w) = false →
  loop_objects_in_view_layer w →
  ∃ res,
    export_collections_to_gltf export_scene_gltf restore_mode_set os_makedirs
      export_path w
    = Some res
    ∧ (∀ path exist_ok, Makedirs path exist_ok ∉ log res)
    ∧ (gltf_calls (log res)).*1
      = (λ c, OsPath.join (resolve_export_path export_path w) [gltf_filename c])
          <$> filter (λ c, exportable w c = true) (collections w).
Proof.
  intros Hus Hlayer.
  destruct (export_returns export_scene_gltf restore_mode_set os_makedirs
              export_path w) as [res Hres]; [by rewrite Hus|done|].
  exists res. split; [done|]. split.
  - revert Hres. unfold export_collections_to_gltf. rewrite Hus.
    destruct (for_collections _ _ _) as [r|] eqn:Hloop; [|done].
    apply for_collections_flat in Hloop as (seg & Hlog & Hseg).
    intros (_ & _ & _ & _ & _ & tail & -> & Hqt & _)%restore_and_report_spec.
    intros path exist_ok. rewrite Hlog, !elem_of_app.
    pose proof (before_loop_quiet w) as Hpre.
    rewrite Forall_forall in Hpre, Hseg, Hqt.
    intros [[Hin|Hin]|Hin];
      [by specialize (Hpre _ Hin)|by specialize (Hseg _ Hin)|by specialize (Hqt _ Hin)].
  - apply export_run_spec in Hres as (Hall & -> & _).
    rewrite Hus in Hall. by apply round_results_flat.
Qed.

End Counting.

(** ** Which files coincide *)

Lemma string_length_append (s t : string) :
  String.length (s +:+ t) = String.length s + String.length t.
Proof. induction s as [|c s IH]; [done|]. rewrite append_cons. cbn. by rewrite IH. Qed.

Lemma append_inj_r (s1 s2 t : string) : s1 +:+ t = s2 +:+ t → s1 = s2.
Proof.
  revert s2. induction s1 as [|c s1 IH]; intros [|d s2] Heq; [done|..].
  - apply (f_equal String.length) in Heq.
    rewrite !string_length_append in Heq. cbn in Heq. lia.
  - apply (f_equal String.length) in Heq.
    rewrite !string_length_append in Heq. cbn in Heq. lia.
  - rewrite !append_cons in Heq. injection Heq as -> Heq. by rewrite (IH s2).
Qed.

(** X12.  In one directory two collections get the same file exactly when
    their sanitised names are the same: differing names are told apart as
    long as they differ in a letter, a digit, a space inside, a hyphen or an
    underscore. *)
Theorem same_file_iff_same_safe_name dir c1 c2 :
  OsPath.join dir [gltf_filename c1] = OsPath.join dir [gltf_filename c2]
  ↔ safe_collection_name (name c1) = safe_collection_name (name c2).
Proof.
  split; [|unfold gltf_filename; by intros ->].
  unfold OsPath.join. cbn [foldl]. unfold OsPath.join_step.
  rewrite !gltf_filename_relative. unfold gltf_filename.
  destruct (bool_decide (dir = "") || OsPath.endswith_sep dir).
  - intros Heq%(inj (String.app dir)). by apply append_inj_r in Heq.
  - intros Heq%(inj (String.app dir))%(inj (String.app "/")).
    by apply append_inj_r in Heq.
Qed.

(** ** What the exporter is shown *)

Lemma export_collection_shown gltf gltf' os_makedirs base us collection r :
  (∀ l w' file,
     shown (world r) collection w' → mode w' = mode (world r) →
     gltf l w' file = gltf' l w' file) →
  export_collection gltf os_makedirs base us collection r
  = export_collection gltf' os_makedirs base us collection r.
Proof.
  intros Hsame. unfold export_collection.
  destruct (export_flag collection) eqn:Hflag; [|done]. cbn [negb].
  case_bool_decide; [done|].
  destruct (select_in_scene (objects collection) (select_all_deselect r) [])
    as [[r1 [|first rest]]|] eqn:Hsel; [done| |done].
  apply (round_shown _ _ _ _ _ Hflag) in Hsel as (Hshown & Hmode & _).
  destruct (export_directory _ _ _ _ _) as [[r2 dir]|] eqn:Hdir; [|done].
  apply export_directory_spec in Hdir as (_ & Hw2 & _).
  cbn [on_world world] in Hw2. rewrite <- Hw2 in Hshown.
  rewrite (Hsame (log r2) (world r2)); [done|done|].
  by rewrite Hw2.
Qed.

(** X13.  The exporter is only ever called with one exportable collection
    shown: of the objects of the collection that are in the scene, all of
    them in the view layer, those that are selectable are selected and the
    first is active (an object that is hidden or not selectable is not
    selected, and may still be the active one); the mode is the mode of the
    loop, and the rest of the host's data is as it was.  Two exporters that
    agree on such calls give the same run. *)
Theorem exporter_sees_one_collection_selected gltf gltf' restore_mode_set
    os_makedirs export_path w :
  (∀ l w' file c,
     c ∈ collections w →
     exportable w c = true →
     Forall (λ obj, obj ∈ view_layer_objects w) (objects_in_scene w c) →
     kept w w' →
     select w'
     = list_to_set (filter (λ obj, obj ∈ selectable_objects w) (objects_in_scene w c)) →
     active w' = head (objects_in_scene w c) →
     mode w' = loop_mode w →
     gltf l w' file = gltf' l w' file) →
  export_collections_to_gltf gltf restore_mode_set os_makedirs export_path w
  = export_collections_to_gltf gltf' restore_mode_set os_makedirs export_path w.
Proof.
  intros Hsame. unfold export_collections_to_gltf.
  assert (Hloop : ∀ cs r,
    (∀ c, c ∈ cs → c ∈ collections w) →
    kept w (world r) →
    mode (world r) = loop_mode w →
    for_collections (export_collection gltf os_makedirs
                       (resolve_export_path export_path w)
                       (use_collection_structure (gltf_export_props w))) cs r
    = for_collections (export_collection gltf' os_makedirs
                         (resolve_export_path export_path w)
                         (use_collection_structure (gltf_export_props w))) cs r).
  { induction cs as [|c cs IH]; intros r Hin Hk Hm; [done|].
    cbn [for_collections].
    rewrite <- (export_collection_shown gltf gltf').
    - destruct (export_collection gltf _ _ _ c r) as [r1|] eqn:Hbody; [|done].
      apply export_collection_kept in Hbody as [Hk1 Hm1].
      apply IH.
      + intros c' Hc'. by apply Hin, list_elem_of_further.
      + by eapply kept_trans.
      + congruence.
    - intros l w' file Hshown Hmode.
      apply (shown_kept w) in Hshown as (? & ? & ? & ? & ?); [|done].
      apply (Hsame l w' file c); [apply Hin, list_elem_of_here|done..|congruence]. }
  rewrite Hloop; [done|done|apply before_loop_kept|apply before_loop_mode].
Qed.

(** ** Host calls that end the run *)

Lemma exportable_intro w collection obj :
  export_flag collection = true → obj ∈ objects collection →
  obj ∈ scene_objects w → exportable w collection = true.
Proof.
  intros Hflag Hobj Hscene. unfold exportable, objects_in_scene. rewrite Hflag.
  rewrite bool_decide_eq_false_2; [done|]. intros Hnone.
  assert (obj ∈ filter (λ o, o ∈ scene_objects w) (objects collection)) as Hin
    by (by apply list_elem_of_filter).
  rewrite Hnone in Hin. by apply elem_of_nil in Hin.
Qed.

Section Raising.

Variable export_scene_gltf : list Event → World → string → OpResult.
Variable restore_mode_set : list Event → World → string → OpResult.
Variable os_makedirs : list Event → World → string → OpResult.

Local Abbreviation body := (export_collection export_scene_gltf os_makedirs).

(** A loop that comes back has run the round of each collection, from
    host data kept as they were. *)
Lemma for_collections_reaches base us : ∀ cs r r' c,
  for_collections (body base us) cs r = Some r' → c ∈ cs →
  ∃ r0 r1, kept (world r) (world r0) ∧ body base us c r0 = Some r1.
Proof.
  induction cs as [|c0 cs IH]; intros r r' c; [by intros _ ?%elem_of_nil|].
  cbn [for_collections].
  destruct (body base us c0 r) as [r1|] eqn:Hbody; [|done].
  intros Hrest [->|Hc]%elem_of_cons.
  - exists r, r1. split; [apply kept_refl|done].
  - destruct (IH _ _ _ Hrest Hc) as (r0 & r2 & Hk & Hr).
    exists r0, r2. split; [|done]. eapply kept_trans; [|done].
    by apply export_collection_kept in Hbody as [? _].
Qed.

Lemma export_reaches export_path w res c :
  export_collections_to_gltf export_scene_gltf restore_mode_set os_makedirs
    export_path w = Some res →
  c ∈ collections w →
  ∃ r0 r1,
    kept w (world r0)
    ∧ body (resolve_export_path export_path w)
        (use_collection_structure (gltf_export_props w)) c r0 = Some r1.
Proof.
  unfold export_collections_to_gltf.
  destruct (for_collections _ _ _) as [r|] eqn:Hloop; [|done].
  intros _ Hc. destruct (for_collections_reaches _ _ _ _ _ _ Hloop Hc)
    as (r0 & r1 & Hk & Hbody).
  exists r0, r1. split; [|done]. eapply kept_trans; [apply before_loop_kept|done].
Qed.

(** The round of an exportable collection asks for its directory. *)
Lemma export_collection_directory base us collection r r' :
  body base us collection r = Some r' →
  exportable (world r) collection = true →
  ∃ r1 r2 dir,
    collections (world r1) = collections (world r)
    ∧ export_directory os_makedirs base us collection r1 = Some (r2, dir).
Proof.
  unfold export_collection, exportable, objects_in_scene.
  destruct (export_flag collection) eqn:Hflag; [|done]. cbn [negb andb].
  case_bool_decide as Hobjs; [by rewrite Hobjs|].
  destruct (select_in_scene (objects collection) (select_all_deselect r) [])
    as [[r1 [|first rest]]|] eqn:Hsel; [| |done].
  { apply select_in_scene_spec in Hsel as (Hs & _).
    cbn [select_all_deselect emit on_world world set_select scene_objects app] in Hs.
    rewrite <- Hs. by rewrite bool_decide_eq_true_2. }
  apply (round_shown _ _ _ _ _ Hflag) in Hsel as (_ & _ & Hcs & _).
  destruct (export_directory _ base us collection _) as [[r2 dir]|] eqn:Hdir; [|done].
  intros _ _. by eexists (on_world (set_active (Some first)) r1), r2, dir.
Qed.

(** With folders, the directory of a collection that has a parent is the
    one [os.makedirs] made. *)
Lemma export_directory_made base collection r r1 dir :
  export_directory os_makedirs base true collection r = Some (r1, dir) →
  has_parent (collections (world r)) (name collection) →
  os_makedirs (log r) (world r) dir = Returned.
Proof.
  unfold export_directory.
  destruct (get_collection_hierarchy_path _ _) as [hierarchy|] eqn:Hh; [|done].
  apply find_parents_lineage in Hh as (ext & Hext & _ & Hnil).
  cbn [app] in Hext. subst ext.
  destruct (reverse hierarchy) as [|root below] eqn:Hrev.
  - intros _ Hp.
    assert (hierarchy = []) as Hn
      by (by rewrite <- (reverse_involutive hierarchy), Hrev).
    by apply Hnil in Hn.
  - destruct (os_makedirs _ _ _) eqn:Hmk; [|done]. by intros [= <- <-] _.
Qed.

(** X22.  [obj.select_set(True)] is outside every [try]: when a flagged
    collection holds an object that is in the scene and not in the view
    layer, the run does not return, whatever the exporter and [os.makedirs]
    do; the restore phase is not reached. *)
Theorem select_outside_view_layer_ends_run export_path w c obj :
  c ∈ collections w →
  export_flag c = true →
  obj ∈ objects c →
  obj ∈ scene_objects w →
  obj ∉ view_layer_objects w →
  export_collections_to_gltf export_scene_gltf restore_mode_set os_makedirs
    export_path w = None.
Proof.
  intros Hc Hflag Hobj Hscene Hout.
  destruct (export_collections_to_gltf _ _ _ _ w) as [res|] eqn:Hres; [|done].
  exfalso.
  destruct (export_reaches _ _ _ _ Hres Hc) as (r0 & r1 & Hk & Hbody).
  destruct Hk as (_ & Hso & _ & _ & _ & Hvl & _).
  apply export_collection_unfold in Hbody
    as [(Hoff & _)|(r2 & dir & seg & text & (_ & Hlayer & _) & _)].
  - rewrite (exportable_intro (world r0) c obj) in Hoff; [done..|by rewrite Hso].
  - rewrite Forall_forall in Hlayer. apply Hout. rewrite <- Hvl. apply Hlayer.
    unfold objects_in_scene. apply list_elem_of_filter. by rewrite Hso.
Qed.

(** X23.  [os.makedirs] is outside the [try] as well: with
    [use_collection_structure] on, when it does not return for the directory
    of an exportable collection that has a parent, the run does not
    return. *)
Theorem makedirs_failure_ends_run export_path w c dir :
  use_collection_structure (gltf_export_props w) = true →
  c ∈ collections w →
  exportable w c = true →
  has_parent (collections w) (name c) →
  export_dir (resolve_export_path export_path w) true (collections w) c dir →
  (∀ l w', os_makedirs l w' dir ≠ Returned) →
  export_collections_to_gltf export_scene_gltf restore_mode_set os_makedirs
    export_path w = None.
Proof.
  intros Hus Hc Hexp Hp (hierarchy & Hh & ->) Hraises.
  destruct (export_collections_to_gltf _ _ _ _ w) as [res|] eqn:Hres; [|done].
  exfalso.
  destruct (export_reaches _ _ _ _ Hres Hc) as (r0 & r1 & Hk & Hbody).
  destruct Hk as (Hcs & Hso & _).
  rewrite Hus in Hbody.
  apply export_collection_directory in Hbody as (r2 & r3 & dir & Hcs2 & Hdir);
    [|by rewrite (exportable_scene w)].
  pose proof Hdir as ((h & Hh' & ->) & _)%export_directory_spec.
  apply export_directory_made in Hdir; [|by rewrite Hcs2, Hcs].
  rewrite Hcs2, Hcs, Hh in Hh'. injection Hh' as <-.
  by apply Hraises in Hdir.
Qed.

End Raising.

(** An object that cannot be selected is still listed, and so can become
    the active object of the export: with the cube hidden, the round of
    [Props] lists the cube and the crate and selects the crate only. *)
Example hidden_object_listed_not_selected :
  ∃ r,
    select_in_scene ["Cube"; "Crate"] (before_loop studio_cube_hidden) []
    = Some (r, ["Cube"; "Crate"])
    ∧ select (world r) = {["Crate"]}.
Proof. eexists. split; [vm_compute; reflexivity|]. by vm_compute. Qed.

(** ** The sanitised name *)

Lemma keep_all f s : all_chars f s = true → Py.keep f s = s.
Proof.
  induction s as [|c s IH]; [done|]. cbn [all_chars Py.keep].
  intros [-> Hs]%andb_true_iff. by rewrite IH.
Qed.

Lemma rstrip_with_twice g s :
  Py.rstrip_with g (Py.rstrip_with g s) = Py.rstrip_with g s.
Proof.
  induction s as [|c s IH]; [done|]. cbn [Py.rstrip_with].
  destruct (Py.rstrip_with g s) as [|d t] eqn:Ht.
  - destruct (g c) eqn:Hc; [done|]. cbn [Py.rstrip_with]. by rewrite Hc.
  - change (Py.rstrip_with g (String c (String d t)))
      with (match Py.rstrip_with g (String d t) with
            | EmptyString => if g c then EmptyString else String c EmptyString
            | u => String c u
            end).
    by rewrite IH.
Qed.

Lemma rstrip_with_all g s : all_chars g s = true → Py.rstrip_with g s = "".
Proof.
  induction s as [|c s IH]; [done|]. cbn [all_chars Py.rstrip_with].
  intros [-> Hs]%andb_true_iff. by rewrite IH.
Qed.

Lemma all_chars_impl (f g : ascii → bool) s :
  (∀ c, f c = true → g c = true) → all_chars f s = true → all_chars g s = true.
Proof.
  intros Himpl. induction s as [|c s IH]; [done|]. cbn [all_chars].
  intros [Hc Hs]%andb_true_iff. by rewrite (Himpl c Hc), IH.
Qed.

(** X14.  A sanitised name holds only letters, digits, spaces, hyphens and
    underscores, has no white space at its end, and is its own sanitised
    name: sanitising a second time changes nothing. *)
Theorem safe_collection_name_safe collection_name :
  all_chars allowed (safe_collection_name collection_name) = true
  ∧ Py.rstrip (safe_collection_name collection_name)
    = safe_collection_name collection_name
  ∧ safe_collection_name (safe_collection_name collection_name)
    = safe_collection_name collection_name.
Proof.
  assert (Hall : all_chars allowed (safe_collection_name collection_name) = true).
  { apply rstrip_all_chars, keep_all_chars. }
  split; [done|]. split.
  - apply rstrip_with_twice.
  - unfold safe_collection_name at 1. fold allowed.
    rewrite (keep_all allowed) by done. apply rstrip_with_twice.
Qed.

(** X15.  A collection whose name has no letter, digit, hyphen or
    underscore is exported to the file [.gltf]: nothing of the name is
    left. *)
Theorem nameless_file collection :
  all_chars (λ c, negb (Py.isalnum c) && negb (bool_decide (c ∈ ["-"; "_"]%char)))
    (name collection) = true →
  gltf_filename collection = ".gltf".
Proof.
  intros Hname. unfold gltf_filename, safe_collection_name, Py.rstrip.
  rewrite rstrip_with_all; [done|].
  induction (name collection) as [|c s IH]; [done|].
  cbn [all_chars] in Hname. apply andb_true_iff in Hname as [Hc Hs].
  cbn [Py.keep]. destruct (Py.isalnum c || bool_decide (c ∈ [" "; "-"; "_"]%char)) eqn:Hk;
    [|by apply IH].
  cbn [all_chars]. rewrite (IH Hs), andb_true_r.
  apply andb_true_iff in Hc as [Halnum%negb_true_iff Hdash%negb_true_iff].
  rewrite Halnum in Hk. cbn [orb] in Hk.
  apply bool_decide_eq_true in Hk. apply bool_decide_eq_false in Hdash.
  apply elem_of_cons in Hk as [->|Hk]; [done|]. by destruct Hdash.
Qed.

(** ** The export path of the operator *)

Lemma lstrip_starts_clean s : starts_clean (lstrip_with Py.isspace s) = true.
Proof.
  induction s as [|c s IH]; [done|]. cbn [lstrip_with].
  destruct (Py.isspace c) eqn:Hc; [done|]. cbn. by rewrite Hc.
Qed.

Lemma lstrip_clean s : starts_clean s = true → lstrip_with Py.isspace s = s.
Proof. destruct s as [|c s]; [done|]. cbn. by intros ->%negb_true_iff. Qed.

Lemma rstrip_starts_clean s : starts_clean s = true → starts_clean (Py.rstrip s) = true.
Proof.
  destruct s as [|c s]; [done|]. cbn [starts_clean]. intros Hc.
  unfold Py.rstrip. cbn [Py.rstrip_with].
  destruct (Py.rstrip_with Py.isspace s); [|done].
  apply negb_true_iff in Hc. rewrite Hc. cbn. by rewrite Hc.
Qed.

Lemma strip_twice s : strip (strip s) = strip s.
Proof.
  unfold strip at 1.
  rewrite lstrip_clean by apply rstrip_starts_clean, lstrip_starts_clean.
  apply rstrip_with_twice.
Qed.

(** X16.  The export operator hands on the export path of the settings
    without the white space around it, and no path at all when nothing else
    is in it: a path it hands on is never empty and has no white space at
    either end. *)
Theorem custom_export_path_stripped gltf_props :
  (∀ p, custom_export_path gltf_props = Some p →
        p = strip (export_path gltf_props) ∧ p ≠ "" ∧ strip p = p)
  ∧ (custom_export_path gltf_props = None ↔ strip (export_path gltf_props) = "").
Proof.
  unfold custom_export_path.
  destruct (bool_decide (export_path gltf_props ≠ "")) eqn:Hp.
  - destruct (bool_decide (strip (export_path gltf_props) ≠ "")) eqn:Hs.
    + apply bool_decide_eq_true in Hs. split; [|split; [done|by intros ?]].
      intros p [= <-]. by rewrite strip_twice.
    + apply bool_decide_eq_false in Hs. split; [done|]. split; [intros _|done].
      destruct (decide (strip (export_path gltf_props) = "")); [done|by destruct Hs].
  - apply bool_decide_eq_false in Hp.
    assert (export_path gltf_props = "") as ->
      by (destruct (decide (export_path gltf_props = "")); [done|by destruct Hp]).
    done.
Qed.

(** ** More on the hierarchy walk *)

(** X17.  Where every collection is the child of some collection, the walk
    from a child never ends, whatever the fuel: the source would recurse
    without bound. *)
Theorem walk_never_ends_without_root data target :
  (∀ c, c ∈ data → has_parent data (name c)) →
  has_parent data (name target) →
  ∀ fuel current_path, find_parents fuel data target current_path = None.
Proof.
  intros Hall Htarget fuel. revert target Htarget.
  induction fuel as [|fuel IH]; intros target Htarget cur; [done|].
  cbn [find_parents].
  destruct (List.find (is_child_of target) data) as [parent|] eqn:Hfind.
  - destruct (find_first_parent _ _ _ Hfind) as [Hin _].
    pose proof (Hall _ Hin) as Hp.
    rewrite (proj2 (parent_found_iff data parent) Hp). by apply IH.
  - by destruct (find_no_parent _ _ Hfind).
Qed.

(** X18.  The folders of a collection are named after collections of the
    host's data, and in an acyclic hierarchy there are no more of them than
    there are collections. *)
Theorem hierarchy_path_of_collections data collection path :
  acyclic data →
  get_collection_hierarchy_path data collection = Some path →
  (∀ folder, folder ∈ path → ∃ c, c ∈ data ∧ name c = folder)
  ∧ length path ≤ length data.
Proof.
  intros Hacyc (ext & Hext & Hlin & _)%find_parents_lineage.
  cbn [app] in Hext. subst ext.
  assert (Hnames : ∀ folder, folder ∈ path → folder ∈ name <$> data).
  { intros folder Hin%elem_of_reverse.
    pose proof (lineage_ancestors _ _ _ Hlin _ Hin) as Htc.
    destruct Htc as [a b (p & Hp & <- & _)|a b d (p & Hp & <- & _) _];
      by apply list_elem_of_fmap_2. }
  split.
  - intros folder Hin. apply Hnames, list_elem_of_fmap in Hin as (c & -> & Hc).
    by exists c.
  - pose proof (lineage_NoDup _ _ _ Hacyc Hlin) as [_ Hnd]%NoDup_cons.
    rewrite reverse_Permutation in Hnd.
    rewrite <- (length_fmap name data).
    by apply submseteq_length, NoDup_submseteq.
Qed.

(** ** The panel *)

Lemma collection_rows_checkboxes cs :
  omap checkbox (flat_map operators (collection_row <$> cs)) = checkbox_of <$> cs.
Proof.
  induction cs as [|c cs IH]; [done|].
  cbn [fmap list_fmap flat_map]. rewrite omap_app, IH. done.
Qed.

Lemma collection_rows_labels cs :
  flat_map labels (collection_row <$> cs) = row_label <$> cs.
Proof.
  induction cs as [|c cs IH]; [done|].
  cbn [fmap list_fmap flat_map]. by rewrite IH.
Qed.

Lemma draw_checkboxes w :
  checkboxes (GLTF_PT_collection_exporter_draw w) = checkbox_of <$> collections w.
Proof.
  unfold checkboxes, GLTF_PT_collection_exporter_draw.
  rewrite <- collection_rows_checkboxes.
  destruct (bool_decide (export_path (gltf_export_props w) ≠ ""));
    (destruct (collections w) as [|c cs];
     [done|rewrite (bool_decide_eq_false_2 (length (c :: cs) = 0)) by done]);
    cbn [flat_map operators app]; by rewrite !(right_id_L [] (++)).
Qed.

(** X19.  The panel shows one checkbox for every collection, in the order
    of [bpy.data.collections]: ticked exactly when the collection's flag
    reads as set, and carrying the collection's name as the name the toggle
    operator will be run with; next to it the name and the number of objects
    of the collection.  Without collections it shows none and says so. *)
Theorem panel_lists_collections w :
  checkboxes (GLTF_PT_collection_exporter_draw w) = checkbox_of <$> collections w
  ∧ (∀ c, c ∈ collections w →
       row_label c ∈ flat_map labels (GLTF_PT_collection_exporter_draw w))
  ∧ (collections w = [] →
     "No collections found" ∈ flat_map labels (GLTF_PT_collection_exporter_draw w)).
Proof.
  split; [apply draw_checkboxes|]. unfold GLTF_PT_collection_exporter_draw.
  cbn [flat_map labels]. rewrite !(right_id_L [] (++)). split.
  - intros c Hc. apply elem_of_app. right.
    destruct (collections w) as [|c0 cs] eqn:Hcs; [by apply elem_of_nil in Hc|].
    rewrite (bool_decide_eq_false_2 (length (c0 :: cs) = 0)) by done.
    cbn [app]. apply list_elem_of_further.
    rewrite (collection_rows_labels (c0 :: cs)). by apply list_elem_of_fmap_2.
  - intros ->. apply elem_of_app. right. cbn.
    apply list_elem_of_further, list_elem_of_here.
Qed.

Lemma lookup_collection_unique (cs : list Collection) i c :
  NoDup (name <$> cs) → cs !! i = Some c → lookup_collection (name c) cs = Some c.
Proof.
  unfold lookup_collection. revert i.
  induction cs as [|c0 cs IH]; intros i Hnd Hi; [done|].
  cbn [fmap list_fmap] in Hnd. apply NoDup_cons in Hnd as [Hc0 Hnd].
  cbn [List.find]. destruct i as [|i]; cbn in Hi.
  - injection Hi as ->. by rewrite bool_decide_eq_true_2.
  - rewrite bool_decide_eq_false_2; [by apply (IH i)|].
    intros Heq. apply Hc0. rewrite Heq.
    apply list_elem_of_fmap_2. by eapply list_elem_of_lookup_2.
Qed.

Lemma assign_export_flag_at (cs : list Collection) i c value :
  NoDup (name <$> cs) → cs !! i = Some c →
  assign_export_flag (name c) value cs = <[i := set_export_flag value c]> cs.
Proof.
  revert i. induction cs as [|c0 cs IH]; intros i Hnd Hi; [done|].
  cbn [fmap list_fmap] in Hnd. apply NoDup_cons in Hnd as [Hc0 Hnd].
  cbn [assign_export_flag]. destruct i as [|i]; cbn in Hi.
  - injection Hi as ->. by rewrite bool_decide_eq_true_2.
  - rewrite bool_decide_eq_false_2.
    + cbn. by rewrite (IH i).
    + intros Heq. apply Hc0. rewrite Heq.
      apply list_elem_of_fmap_2. by eapply list_elem_of_lookup_2.
Qed.

(** X20.  With collection names that are all different, running the toggle
    operator with the name a checkbox carries flips that checkbox and no
    other: the panel drawn afterwards differs in that one tick. *)
Theorem pressing_a_checkbox_flips_it w i c :
  NoDup (name <$> collections w) →
  collections w !! i = Some c →
  checkboxes (GLTF_PT_collection_exporter_draw w) !! i = Some (checkbox_of c)
  ∧ checkboxes (GLTF_PT_collection_exporter_draw
                  (GLTF_OT_toggle_collection_execute (name c) w).1)
    = <[i := (if export_flag c then "CHECKBOX_DEHLT" else "CHECKBOX_HLT", name c)]>
        (checkboxes (GLTF_PT_collection_exporter_draw w)).
Proof.
  intros Hnd Hi. rewrite !draw_checkboxes.
  split; [by rewrite list_lookup_fmap, Hi|].
  unfold GLTF_OT_toggle_collection_execute.
  rewrite (lookup_collection_unique _ i) by done.
  cbn [fst collections set_collections].
  rewrite (assign_export_flag_at _ i) by done.
  rewrite list_fmap_insert. f_equal.
  unfold checkbox_of. rewrite export_flag_set. cbn [name set_export_flag].
  by destruct (export_flag c).
Qed.

(** X21.  After "Enable All" every checkbox of the panel is ticked, and
    after "Disable All" none is; the names and their order stay. *)
Theorem enable_all_ticks_every_checkbox w :
  checkboxes (GLTF_PT_collection_exporter_draw
                (GLTF_OT_enable_all_collections_execute w).1)
  = (λ c, ("CHECKBOX_HLT", name c)) <$> collections w
  ∧ checkboxes (GLTF_PT_collection_exporter_draw
                  (GLTF_OT_disable_all_collections_execute w).1)
    = (λ c, ("CHECKBOX_DEHLT", name c)) <$> collections w.
Proof.
  rewrite !draw_checkboxes.
  unfold GLTF_OT_enable_all_collections_execute, GLTF_OT_disable_all_collections_execute,
    enable_all_collections_for_export, disable_all_collections_for_export.
  cbn [fst collections set_collections]. rewrite <- !list_fmap_compose.
  split; apply list_fmap_ext; intros j c _; unfold checkbox_of; cbn [compose];
    by rewrite export_flag_set.
Qed.

(** * The further properties on the example scenes *)

Lemma toggle_collection_export_same_witness :
  ∃ c,
    lookup_collection "Props" (collections studio) = Some c
    ∧ custom_properties c !! "export_gltf" = Some true
    ∧ (toggle_collection_export "Props" true studio).1 = studio.
Proof.
  eexists. do 2 (split; [vm_compute; reflexivity|]).
  eapply toggle_collection_export_same; vm_compute; reflexivity.
Defined.

Lemma unknown_collection_untouched_witness :
  (∀ c, c ∈ collections studio → name c ≠ "Scenery")
  ∧ (GLTF_OT_toggle_collection_execute "Scenery" studio).1 = studio.
Proof.
  assert (Hno : ∀ c, c ∈ collections studio → name c ≠ "Scenery").
  { apply Forall_forall, (bool_decide_unpack _). vm_compute; reflexivity. }
  split; [exact Hno|].
  by rewrite (proj1 (unknown_collection_untouched "Scenery" true studio Hno)).
Defined.

Lemma toggle_collection_export_sets_witness :
  ∃ c,
    lookup_collection "Root" (collections studio) = Some c
    ∧ export_flag
        <$> lookup_collection "Root"
              (collections (toggle_collection_export "Root" true studio).1)
      = Some true.
Proof.
  eexists. split; [vm_compute; reflexivity|].
  destruct (toggle_collection_export_sets "Root" true studio _
              ltac:(vm_compute; reflexivity)) as (_ & Hflag & _).
  exact Hflag.
Defined.

Lemma nothing_exportable_nothing_written_witness :
  (∀ c, c ∈ collections other_scene → exportable other_scene c = false)
  ∧ ∃ res,
      export_collections_to_gltf always_returns always_returns always_returns
        (Some "/out") other_scene
      = Some res
      ∧ gltf_calls (log res) = [].
Proof.
  assert (Hnone : ∀ c, c ∈ collections other_scene → exportable other_scene c = false).
  { apply Forall_forall, (bool_decide_unpack _). vm_compute; reflexivity. }
  split; [exact Hnone|].
  destruct (nothing_exportable_nothing_written always_returns always_returns
              always_returns (Some "/out") other_scene Hnone) as (res & Hres & Hcalls & _).
  by exists res.
Defined.

Lemma export_keeps_host_data_witness :
  ∃ res, studio_run = Some res ∧ collections (world res) = collections studio.
Proof.
  eexists. split; [vm_compute; reflexivity|].
  destruct (export_keeps_host_data studio_exporter always_returns always_returns
              None studio _
              ltac:(vm_compute; reflexivity)) as (Hcs & _).
  exact Hcs.
Defined.

Lemma mode_restored_unless_raised_witness :
  ∃ res,
    studio_run = Some res
    ∧ (mode (world res) = mode studio
       ∨ (mode (world res) = "OBJECT"
          ∧ ∃ e, ModeSet (mode studio) (Raised e) ∈ log res)).
Proof.
  eexists. split; [vm_compute; reflexivity|].
  apply (mode_restored_unless_raised studio_exporter always_returns always_returns
           None studio).
  vm_compute; reflexivity.
Defined.

Lemma exported_count_bounds_witness :
  ∃ res,
    studio_run = Some res
    ∧ exported_count res
      ≤ length (filter (λ c, exportable studio c = true) (collections studio)).
Proof.
  eexists. split; [vm_compute; reflexivity|].
  destruct (exported_count_bounds studio_exporter always_returns always_returns
              None studio _ ltac:(vm_compute; reflexivity)) as (_ & _ & _ & Hle & _).
  exact Hle.
Defined.

Lemma flat_export_writes_into_export_path_witness :
  use_collection_structure (gltf_export_props twins) = false
  ∧ loop_objects_in_view_layer twins
  ∧ ∃ res,
      export_collections_to_gltf always_returns always_returns (raises_on "/out")
        (Some "/out") twins
      = Some res
      ∧ ∀ path exist_ok, Makedirs path exist_ok ∉ log res.
Proof.
  assert (Hlayer : loop_objects_in_view_layer twins).
  { apply scene_in_view_layer, (bool_decide_unpack _). vm_compute; reflexivity. }
  split; [reflexivity|]. split; [exact Hlayer|].
  destruct (flat_export_writes_into_export_path always_returns always_returns
              (raises_on "/out") (Some "/out") twins eq_refl Hlayer)
    as (res & Hres & Hno & _).
  by exists res.
Defined.

Lemma exporter_sees_one_collection_selected_witness :
  (∀ (l : list Event) w' (file : string) c,
     c ∈ collections studio →
     exportable studio c = true →
     Forall (λ obj, obj ∈ view_layer_objects studio) (objects_in_scene studio c) →
     kept studio w' →
     select w'
     = list_to_set (filter (λ obj, obj ∈ selectable_objects studio)
                      (objects_in_scene studio c)) →
     active w' = head (objects_in_scene studio c) →
     mode w' = loop_mode studio →
     always_returns l w' file = needs_active l w' file)
  ∧ export_collections_to_gltf always_returns always_returns always_returns None studio
    = export_collections_to_gltf needs_active always_returns always_returns None studio.
Proof.
  assert (Hsame : ∀ (l : list Event) w' (file : string) c,
     c ∈ collections studio →
     exportable studio c = true →
     Forall (λ obj, obj ∈ view_layer_objects studio) (objects_in_scene studio c) →
     kept studio w' →
     select w'
     = list_to_set (filter (λ obj, obj ∈ selectable_objects studio)
                      (objects_in_scene studio c)) →
     active w' = head (objects_in_scene studio c) →
     mode w' = loop_mode studio →
     always_returns l w' file = needs_active l w' file).
  { intros l w' file c _ Hexp _ _ _ Hactive _. unfold needs_active, always_returns.
    rewrite Hactive. unfold exportable in Hexp.
    destruct (objects_in_scene studio c); [|done].
    by rewrite andb_false_r in Hexp. }
  split; [exact Hsame|].
  exact (exporter_sees_one_collection_selected always_returns needs_active
           always_returns always_returns None studio Hsame).
Defined.

Lemma nameless_file_witness :
  all_chars (λ c, negb (Py.isalnum c) && negb (bool_decide (c ∈ ["-"; "_"]%char)))
    (name (flagged "?! ." ["Cube"] [])) = true
  ∧ gltf_filename (flagged "?! ." ["Cube"] []) = ".gltf".
Proof.
  split; [reflexivity|].
  apply (nameless_file (flagged "?! ." ["Cube"] [])). reflexivity.
Defined.

Lemma walk_never_ends_without_root_witness :
  (∀ c, c ∈ ring → has_parent ring (name c))
  ∧ has_parent ring "A"
  ∧ get_collection_hierarchy_path ring (unflagged "A" [] ["B"]) = None.
Proof.
  assert (HA : has_parent ring "A").
  { exists "B", (unflagged "B" [] ["A"]).
    split; [apply list_elem_of_further, list_elem_of_here|].
    split; [reflexivity|apply list_elem_of_here]. }
  assert (HB : has_parent ring "B").
  { exists "A", (unflagged "A" [] ["B"]).
    split; [apply list_elem_of_here|].
    split; [reflexivity|apply list_elem_of_here]. }
  assert (Hall : ∀ c, c ∈ ring → has_parent ring (name c)).
  { intros c [->|[->|Hc%elem_of_nil]%elem_of_cons]%elem_of_cons; done. }
  split; [exact Hall|]. split; [exact HA|].
  exact (walk_never_ends_without_root ring (unflagged "A" [] ["B"]) Hall HA _ _).
Defined.

Lemma hierarchy_path_of_collections_witness :
  acyclic (collections studio)
  ∧ get_collection_hierarchy_path (collections studio) (flagged "Small" ["Bolt"] [])
    = Some ["Props"; "Root"]
  ∧ length ["Props"; "Root"] ≤ length (collections studio).
Proof.
  assert (Hacyc : acyclic (collections studio)).
  { apply (ranked_acyclic studio_rank). vm_compute; reflexivity. }
  split; [exact Hacyc|]. split; [vm_compute; reflexivity|].
  destruct (hierarchy_path_of_collections (collections studio)
              (flagged "Small" ["Bolt"] []) ["Props"; "Root"] Hacyc
              ltac:(vm_compute; reflexivity)) as [_ Hlen].
  exact Hlen.
Defined.

Lemma pressing_a_checkbox_flips_it_witness :
  NoDup (name <$> collections studio)
  ∧ collections studio !! 1 = Some (flagged "Props" ["Cube"; "Crate"] ["Small"])
  ∧ checkboxes (GLTF_PT_collection_exporter_draw
                  (GLTF_OT_toggle_collection_execute "Props" studio).1)
    = <[1 := ("CHECKBOX_DEHLT", "Props")]>
        (checkboxes (GLTF_PT_collection_exporter_draw studio)).
Proof.
  assert (Hnd : NoDup (name <$> collections studio)).
  { apply (bool_decide_unpack _). vm_compute; reflexivity. }
  split; [exact Hnd|]. split; [reflexivity|].
  destruct (pressing_a_checkbox_flips_it studio 1
              (flagged "Props" ["Cube"; "Crate"] ["Small"]) Hnd eq_refl) as [_ Hflip].
  exact Hflip.
Defined.

Lemma select_outside_view_layer_ends_run_witness :
  (flagged "Props" ["Cube"; "Crate"] ["Small"] ∈ collections studio_cube_excluded)
  ∧ "Cube" ∈ scene_objects studio_cube_excluded
  ∧ ("Cube" ∉ view_layer_objects studio_cube_excluded)
  ∧ export_collections_to_gltf always_returns always_returns always_returns None
      studio_cube_excluded = None.
Proof.
  assert (Hc : flagged "Props" ["Cube"; "Crate"] ["Small"]
               ∈ collections studio_cube_excluded)
    by apply list_elem_of_further, list_elem_of_here.
  assert (Hscene : "Cube" ∈ scene_objects studio_cube_excluded)
    by apply list_elem_of_further, list_elem_of_here.
  assert (Hout : "Cube" ∉ view_layer_objects studio_cube_excluded)
    by (apply (bool_decide_unpack _); vm_compute; reflexivity).
  do 3 (split; [assumption|]).
  apply (select_outside_view_layer_ends_run always_returns always_returns
           always_returns None studio_cube_excluded
           (flagged "Props" ["Cube"; "Crate"] ["Small"]) "Cube" Hc eq_refl);
    [apply list_elem_of_here|exact Hscene|exact Hout].
Defined.

Lemma makedirs_failure_ends_run_witness :
  exportable studio (flagged "Props" ["Cube"; "Crate"] ["Small"]) = true
  ∧ has_parent (collections studio) "Props"
  ∧ export_collections_to_gltf always_returns always_returns
      (raises_on "/home/artist/Root") None studio = None.
Proof.
  assert (Hp : has_parent (collections studio) "Props").
  { exists "Root", (unflagged "Root" ["Empty"] ["Props"; "Lights"]).
    split; [apply list_elem_of_here|]. split; [reflexivity|apply list_elem_of_here]. }
  split; [vm_compute; reflexivity|]. split; [exact Hp|].
  apply (makedirs_failure_ends_run always_returns always_returns
           (raises_on "/home/artist/Root") None studio
           (flagged "Props" ["Cube"; "Crate"] ["Small"]) "/home/artist/Root").
  - reflexivity.
  - apply list_elem_of_further, list_elem_of_here.
  - vm_compute; reflexivity.
  - exact Hp.
  - exists ["Root"]. split; vm_compute; reflexivity.
  - intros l w'. vm_compute. discriminate.
Defined.
